(** * redux-firestore: reducer utilities ([src/utils/reducers.js])

    A shallow embedding of the helpers of [src/utils/reducers.js] and the
    properties their specification states about them.

    - Strings are [string]; an argument that may be [undefined] is an
      [option].
    - Objects and arrays live in a heap of cells addressed by locations,
      so that "same reference" and "freshly allocated" are statements about
      locations.  A plain object inherits the members of
      [Object.prototype].
    - A [throw] is the left summand of the result. *)

From Stdlib Require Import Strings.String Strings.Ascii ZArith Lia List.
From Stdlib Require Import Numbers.DecimalString.
From stdpp Require Import base list strings.
Import ListNotations.

Local Open Scope string_scope.
Local Open Scope list_scope.

(** ** JavaScript strings *)

Module JsString.

(** [!!p] on a string: only the empty string is falsy. *)
Definition truthy (s : string) : bool := negb (String.eqb s "").

(** Does the character [c] occur in [s]? *)
Fixpoint has_char (c : ascii) (s : string) : bool :=
  match s with
  | EmptyString => false
  | String a s' => if Ascii.eqb a c then true else has_char c s'
  end.

(** [s.split(c)] for a one-character separator: the pieces between the
    occurrences of [c], empty pieces included; never the empty array. *)
Fixpoint split (c : ascii) (s : string) : list string :=
  match s with
  | EmptyString => [""]
  | String a s' =>
      if Ascii.eqb a c then "" :: split c s'
      else match split c s' with
           | [] => [String a ""]
           | w :: ws => String a w :: ws
           end
  end.

(** [arr.join(sep)] on an array of strings. *)
Definition join (sep : string) (arr : list string) : string :=
  String.concat sep arr.

End JsString.

(** ** PathCodec: [pathToArr], [getSlashStrPath], [getDotStrPath] *)

(** [path ? path.split(/\//).filter(p => !!p) : []] *)
Definition pathToArr (path : option string) : list string :=
  match path with
  | Some p =>
      if JsString.truthy p
      then List.filter JsString.truthy (JsString.split "/" p)
      else []
  | None => []
  end.

(** [pathToArr(path).join('/')] *)
Definition getSlashStrPath (path : option string) : string :=
  JsString.join "/" (pathToArr path).

(** [pathToArr(path).join('.')] *)
Definition getDotStrPath (path : option string) : string :=
  JsString.join "." (pathToArr path).

(** ** Exceptions *)

(** [throw new Error(message)]; [TypeError] is what the language itself
    throws (a property read on [undefined], a call of a non-function). *)
Inductive exn : Type :=
| Error (message : string)
| TypeError (message : string).

Definition MissingMetaError : exn :=
  Error "Action meta is required to build path for reducers.".

Definition MissingCollectionError : exn :=
  Error "Collection is required to construct reducer path.".

Definition InvalidPreserveSettingError : exn :=
  Error "Invalid preserve parameter. It must be an Object or an Array".

(** ** MetaPathResolver: [pathFromMeta] *)

(** The action meta data [{ collection, doc, subcollections, storeAs }].
    A field that is not on the object is [None]; an entry of
    [subcollections] may itself be [undefined].  The meta is only read,
    so it is a tree rather than a heap object. *)
#[warnings="-register-all"]
Inductive Meta : Type :=
| mkMeta (collection doc : option string)
         (subcollections : option (list (option Meta)))
         (storeAs : option string).

(** The string a truthy field holds: [Some s] when the field is a
    non-empty string, [None] when it is undefined or empty. *)
Definition present (field : option string) : option string :=
  match field with
  | Some s => if JsString.truthy s then Some s else None
  | None => None
  end.

(** [arr.map(f)] for an [f] that may throw: left to right, the first
    exception ends the traversal. *)
Fixpoint mapM {A B : Type} (f : A -> exn + B) (arr : list A) : exn + list B :=
  match arr with
  | [] => inr []
  | x :: arr' =>
      match f x with
      | inl e => inl e
      | inr y =>
          match mapM f arr' with
          | inl e => inl e
          | inr ys => inr (y :: ys)
          end
      end
  end.

(** [pathFromMeta] from the destructuring on: the meta is known to be an
    object. *)
Fixpoint pathFromMeta_obj (meta : Meta) : exn + string :=
  match meta with
  | mkMeta collection doc subcollections storeAs =>
      match present storeAs with
      | Some s => inr s
      | None =>
          match present collection with
          | None => inl MissingCollectionError
          | Some c =>
              let basePath :=
                match present doc with
                | Some d => c +:+ "." +:+ d
                | None => c
                end in
              match subcollections with
              | None => inr basePath
              | Some subs =>
                  let mapped :=
                    (fix map_ (arr : list (option Meta)) : exn + list string :=
                       match arr with
                       | [] => inr []
                       | x :: arr' =>
                           match match x with
                                 | None => inl MissingMetaError
                                 | Some m => pathFromMeta_obj m
                                 end with
                           | inl e => inl e
                           | inr y =>
                               match map_ arr' with
                               | inl e => inl e
                               | inr ys => inr (y :: ys)
                               end
                           end
                       end) subs in
                  match mapped with
                  | inl e => inl e
                  | inr mappedCollections =>
                      inr (basePath +:+ "." +:+
                           JsString.join "." mappedCollections)
                  end
              end
          end
      end
  end.

Definition pathFromMeta (meta : option Meta) : exn + string :=
  match meta with
  | None => inl MissingMetaError
  | Some m => pathFromMeta_obj m
  end.

(** ** Values, heap and the evaluation monad *)

Module Js.

Abbreviation loc := nat.

(** The identity of a function value; what calling it does is given by
    the function table of the program ([call] below). *)
Abbreviation fid := nat.

(** Values.  Numbers are integers: nothing here depends on fractions
    or on NaN.  Objects and arrays are references into the heap;
    [VObjectPrototype] is [Object.prototype], the one object a program
    meets without having allocated it. *)
Inductive val : Type :=
| VUndef
| VNull
| VBool (b : bool)
| VNum (n : Z)
| VStr (s : string)
| VFun (f : fid)
| VRef (l : loc)
| VObjectPrototype.

#[global] Instance val_eq_dec : EqDecision val.
Proof. solve_decision. Defined.

(** A heap cell: a plain object, its own enumerable properties in the
    order of their creation, or an array.  The prototype of a plain
    object is [Object.prototype]; cells do not record another one.
    (JavaScript enumerates integer-like keys before the others; no
    statement below depends on the order of enumeration.) *)
Inductive cell : Type :=
| CObj (props : list (string * val))
| CArr (elems : list val).

(** Cells are never freed; allocation appends. *)
Abbreviation heap := (list cell).

(** Computations read and write the heap and return or throw. *)
Definition M (A : Type) : Type := heap -> (exn + A) * heap.

Definition ret {A} (x : A) : M A := fun h => (inr x, h).

Definition throw {A} (e : exn) : M A := fun h => (inl e, h).

Definition bind {A B} (m : M A) (k : A -> M B) : M B :=
  fun h =>
    match m h with
    | (inl e, h') => (inl e, h')
    | (inr x, h') => k x h'
    end.

Definition alloc (c : cell) : M val :=
  fun h => (inr (VRef (length h)), h ++ [c]).

(** [a === b] *)
Definition strict_eq (a b : val) : bool := bool_decide (a = b).

(** [!!v] *)
Definition truthy (v : val) : bool :=
  match v with
  | VUndef | VNull => false
  | VBool b => b
  | VNum n => negb (Z.eqb n 0)
  | VStr s => JsString.truthy s
  | VFun _ | VRef _ | VObjectPrototype => true
  end.

(** The property key of an array index. *)
Definition index_key (i : nat) : string :=
  NilEmpty.string_of_uint (Nat.to_uint i).

Definition indexed {A} (f : A -> val) (l : list A) : list (string * val) :=
  imap (fun i x => (index_key i, f x)) l.

Definition char_val (a : ascii) : val := VStr (String a "").

Fixpoint lookup_prop (k : string) (props : list (string * val)) : val :=
  match props with
  | [] => VUndef
  | (k', x) :: props' => if String.eqb k' k then x else lookup_prop k props'
  end.

(** The own property [k], if there is one. *)
Fixpoint own_prop (k : string) (props : list (string * val)) : option val :=
  match props with
  | [] => None
  | (k', x) :: props' => if String.eqb k' k then Some x else own_prop k props'
  end.

(** The properties of [Object.prototype], which every plain object
    inherits.  Its methods are functions of the function table, numbered
    from 1000 on; [__proto__] is an accessor, whose getter gives the
    prototype of the object it is read on. *)
Definition Object_prototype : list (string * val) :=
  [ ("constructor", VFun 1000);
    ("__defineGetter__", VFun 1001);
    ("__defineSetter__", VFun 1002);
    ("hasOwnProperty", VFun 1003);
    ("__lookupGetter__", VFun 1004);
    ("__lookupSetter__", VFun 1005);
    ("isPrototypeOf", VFun 1006);
    ("propertyIsEnumerable", VFun 1007);
    ("toString", VFun 1008);
    ("valueOf", VFun 1009);
    ("__proto__", VObjectPrototype);
    ("toLocaleString", VFun 1010) ].

(** [obj[k]] for a plain object with the own properties [props]: the own
    property, else the member inherited from [Object.prototype], else
    [undefined]. *)
Definition member (k : string) (props : list (string * val)) : val :=
  match own_prop k props with
  | Some x => x
  | None => lookup_prop k Object_prototype
  end.

(** A data property [k] with the value [x] on the properties of a plain
    object: an existing property keeps its place, a new one goes last. *)
Fixpoint assign_prop (k : string) (x : val) (props : list (string * val))
  : list (string * val) :=
  match props with
  | [] => [(k, x)]
  | (k', y) :: props' =>
      if String.eqb k' k then (k, x) :: props'
      else (k', y) :: assign_prop k x props'
  end.

(** The assignment [obj[k] = x] on the properties of a plain object.  A
    key other than [__proto__], or one the object has as its own, is a
    data property that is written.  [__proto__] on an object that has no
    such own property goes to the setter inherited from
    [Object.prototype]: no own property is made.  The prototype the
    setter installs when [x] is an object or [null] is not recorded, so
    the statements about objects that are assigned to assume that no
    [__proto__] is assigned. *)
Definition put (k : string) (x : val) (props : list (string * val))
  : list (string * val) :=
  match own_prop k props with
  | None => if String.eqb k "__proto__" then props else assign_prop k x props
  | Some _ => assign_prop k x props
  end.

(** The properties of an object after the assignments [kvs], in order. *)
Definition put_all (kvs : list (string * val)) (props : list (string * val))
  : list (string * val) :=
  fold_left (fun props kv => put kv.1 kv.2 props) kvs props.

(** The own enumerable properties of a value, as [Object.keys] and the
    spread [{...v}] enumerate them. *)
Definition own_props (h : heap) (v : val) : list (string * val) :=
  match v with
  | VRef l =>
      match h !! l with
      | Some (CObj props) => props
      | Some (CArr elems) => indexed id elems
      | None => []
      end
  | VStr s => indexed char_val (list_ascii_of_string s)
  | _ => []
  end.

(** [v[k]] as a function of the heap.  Inherited members are modelled
    for plain objects and for [Object.prototype]; an array, a string, a
    function or another primitive answers with its own properties
    only. *)
Definition read (h : heap) (v : val) (k : string) : exn + val :=
  match v with
  | VUndef => inl (TypeError "Cannot read properties of undefined")
  | VNull => inl (TypeError "Cannot read properties of null")
  | VObjectPrototype =>
      if String.eqb k "__proto__" then inr VNull
      else inr (lookup_prop k Object_prototype)
  | VRef l =>
      match h !! l with
      | Some (CObj props) => inr (member k props)
      | Some (CArr elems) =>
          if String.eqb k "length" then inr (VNum (Z.of_nat (length elems)))
          else inr (lookup_prop k (indexed id elems))
      | None => inl (TypeError "Cannot read properties of a missing object")
      end
  | VStr s =>
      if String.eqb k "length" then inr (VNum (Z.of_nat (String.length s)))
      else inr (lookup_prop k (indexed char_val (list_ascii_of_string s)))
  | VBool _ | VNum _ | VFun _ => inr VUndef
  end.

(** [v[k]] *)
Definition get (v : val) (k : string) : M val :=
  fun h => (read h v k, h).

(** [target[k] = x] where [target] is a plain object, the only kind of
    target the source assigns to. *)
Definition set (target : val) (k : string) (x : val) : M unit :=
  fun h =>
    match target with
    | VRef l =>
        match h !! l with
        | Some (CObj props) => (inr tt, <[l := CObj (put k x props)]> h)
        | _ => (inl (TypeError "Cannot set properties of a non-object"), h)
        end
    | _ => (inl (TypeError "Cannot set properties of a non-object"), h)
    end.

(** [Object.keys(v)]; the array it returns is only traversed, so it is
    kept as a list. *)
Definition Object_keys (v : val) : M (list string) :=
  fun h =>
    match v with
    | VUndef | VNull =>
        (inl (TypeError "Cannot convert undefined or null to object"), h)
    | _ => (inr (List.map fst (own_props h v)), h)
    end.

(** The properties of an object after the data properties [kvs] have
    been defined on it, in order. *)
Definition assign_all (kvs : list (string * val)) (props : list (string * val))
  : list (string * val) :=
  fold_left (fun props kv => assign_prop kv.1 kv.2 props) kvs props.

(** [{ ...a, ...b }]: the own enumerable properties of [a], then of [b],
    are defined on a new object. *)
Definition spread (a b : val) : M val :=
  fun h => alloc (CObj (assign_all (own_props h a ++ own_props h b) [])) h.

(** [Object.assign({}, a, b)]: the own enumerable properties of [a], then
    of [b], are assigned to a new object. *)
Definition Object_assign_new (a b : val) : M val :=
  fun h => alloc (CObj (put_all (own_props h a ++ own_props h b) [])) h.

(** [arr.push(x)] on the array at [target]. *)
Definition push (target : val) (x : val) : M unit :=
  fun h =>
    match target with
    | VRef l =>
        match h !! l with
        | Some (CArr elems) => (inr tt, <[l := CArr (elems ++ [x])]> h)
        | _ => (inl (TypeError "push is not a function"), h)
        end
    | _ => (inl (TypeError "push is not a function"), h)
    end.

(** The elements of an array on which [map] is called. *)
Definition elements (array : val) : M (list val) :=
  fun h =>
    match array with
    | VUndef | VNull => (inl (TypeError "Cannot read properties of undefined"), h)
    | VRef l =>
        match h !! l with
        | Some (CArr elems) => (inr elems, h)
        | _ => (inl (TypeError "map is not a function"), h)
        end
    | _ => (inl (TypeError "map is not a function"), h)
    end.

(** lodash's [isFunction], [isBoolean] and [isArray]. *)
Definition isFunction (v : val) : bool :=
  match v with VFun _ => true | _ => false end.

Definition isBoolean (v : val) : bool :=
  match v with VBool _ => true | _ => false end.

Definition isArray (v : val) : M bool :=
  fun h =>
    match v with
    | VRef l =>
        match h !! l with
        | Some (CArr _) => (inr true, h)
        | _ => (inr false, h)
        end
    | _ => (inr false, h)
    end.

End Js.

Import Js.

Declare Scope js_scope.
Delimit Scope js_scope with js.
Notation "'let*' x ':=' m 'in' k" :=
  (Js.bind m (fun x => k))
    (at level 10, x name, m at level 100, k at level 200) : js_scope.
Local Open Scope js_scope.

(** ** ReducerCombinator, StateMerger and PreservationPolicy *)

Section Reducers.

(** What calling the function [f] with the arguments [args] does. *)
Variable call : fid -> list val -> M val.

(** lodash's [pick(object, paths)]. *)
Variable pick : val -> val -> M val.

(** [fn(...args)] for a value [fn]. *)
Definition callv (fn : val) (args : list val) : M val :=
  match fn with
  | VFun f => call f args
  | _ => throw (TypeError "not a function")
  end.

(** [keys.reduce(step, init)] *)
Fixpoint reduce {A B} (step : B -> A -> M B) (arr : list A) (acc : B) : M B :=
  match arr with
  | [] => ret acc
  | x :: arr' => let* acc' := step acc x in reduce step arr' acc'
  end.

(** [array.map(f)]: the result array is created first and filled in the
    order of the elements. *)
Definition Array_map (f : val -> M val) (array : val) : M val :=
  let* elems := elements array in
  let* result := alloc (CArr []) in
  reduce (fun result item =>
            let* mapped := f item in
            let* _ := push result mapped in
            ret result)
         elems result.

(** [reducers => (state = {}, action) =>
      Object.keys(reducers).reduce((nextState, key) => {
        nextState[key] = reducers[key](state[key], action);
        return nextState;
      }, {})] *)
Definition combineReducers (reducers : val) : val -> val -> M val :=
  fun state action =>
    let* state :=
      match state with
      | VUndef => alloc (CObj [])
      | _ => ret state
      end in
    let* keys := Object_keys reducers in
    let* init := alloc (CObj []) in
    reduce (fun nextState key =>
              let* reducer := get reducers key in
              let* substate := get state key in
              let* next := callv reducer [substate; action] in
              let* _ := set nextState key next in
              ret nextState)
           keys init.

(** [Object.assign({}, oldObject, newValues)] *)
Definition updateObject (oldObject newValues : val) : M val :=
  Object_assign_new oldObject newValues.

(** [array.map(item => {
       if (item.id !== itemId) { return item; }
       const updatedItem = updateItemCallback(item);
       return updatedItem;
     })] *)
Definition updateItemInArray (array itemId updateItemCallback : val) : M val :=
  Array_map (fun item =>
               let* item_id := get item "id" in
               if negb (strict_eq item_id itemId) then ret item
               else
                 let* updatedItem := callv updateItemCallback [item] in
                 ret updatedItem)
            array.

Definition preserveValuesFromState (state preserveSetting nextState : val)
  : M val :=
  if isFunction preserveSetting then
    callv preserveSetting [state; nextState]
  else if isBoolean preserveSetting && truthy preserveSetting then
    if truthy nextState then spread state nextState else ret state
  else
    let* is_array := isArray preserveSetting in
    if is_array then pick state preserveSetting
    else throw InvalidPreserveSettingError.

End Reducers.

(** ** Vocabulary of the statements *)

(** The id of [item] can be read and is the target [itemId]:
    [item.id === itemId]. *)
Definition has_id (h : heap) (itemId item : val) : bool :=
  match read h item "id" with
  | inr item_id => strict_eq item_id itemId
  | inl _ => false
  end.

(** [frame n h h']: going from [h] to [h'] no cell was freed and the cells
    below [n] are as they were. *)
Definition frame (n : nat) (h h' : heap) : Prop :=
  n <= length h /\ length h <= length h' /\
  forall l, l < n -> h' !! l = h !! l.

(** [f] applied to [x] in a heap reached from [hI] returns [r]. *)
Definition maps_to {A} (f : A -> M val) (hI : heap) (x : A) (r : val) : Prop :=
  exists h0 h1, frame (length hI) hI h0 /\ f x h0 = (inr r, h1).

(** [f] applied to one of [xs] in a heap reached from [hI] throws [e]. *)
Definition throws_at {A} (f : A -> M val) (hI : heap) (xs : list A) (e : exn)
  : Prop :=
  exists x h0 h1, In x xs /\ frame (length hI) hI h0 /\ f x h0 = (inl e, h1).

(** [state[key]] as the combined reducer hands it to a sub-reducer: the
    member [key] of the state object or, when the state is absent, of the
    default [{}]. *)
Definition substate (h : heap) (state : val) (key : string) : val :=
  match state with
  | VRef l =>
      match h !! l with
      | Some (CObj props) => member key props
      | _ => VUndef
      end
  | VUndef => member key []
  | _ => VUndef
  end.

(** [s] with every occurrence of the character [a] turned into [b]. *)
Fixpoint replace_char (a b : ascii) (s : string) : string :=
  match s with
  | EmptyString => EmptyString
  | String x s' => String (if Ascii.eqb x a then b else x) (replace_char a b s')
  end.

(** The assignments among [kvs] that leave an own property on an object
    without an own [__proto__]: those to another key. *)
Definition writes (kvs : list (string * val)) : list (string * val) :=
  List.filter (fun kv => negb (String.eqb kv.1 "__proto__")) kvs.

(** ** A concrete program *)

(** lodash's [pick] for an array of distinct top-level property names: a
    new object with the properties of [object] that [paths] names, in the
    order of [paths].  (Deep paths and repeated names are not covered; the
    functions above take [pick] as a parameter.) *)
Definition pick_own (object paths : val) : M val :=
  fun h =>
    let props := own_props h object in
    let picked :=
      flat_map (fun name =>
                  match name with
                  | VStr k =>
                      if existsb (String.eqb k) (List.map fst props)
                      then [(k, lookup_prop k props)]
                      else []
                  | _ => []
                  end)
               (List.map snd (own_props h paths)) in
    alloc (CObj picked) h.

(** A function table:
    - [0] is [item => ({ ...item, v: 'c' })],
    - [1] is the reducer [(state, action) => typeof state === 'number' ? state + 1 : 0],
    - [2] is the reducer [(state, action) => ({ last: action })],
    - [3] is [() => 'done']. *)
Definition demo_call (f : fid) (args : list val) : M val :=
  match f with
  | 0 => fun h =>
           alloc (CObj (assign_prop "v" (VStr "c")
                          (own_props h (nth 0 args VUndef)))) h
  | 1 => ret (match nth 0 args VUndef with
              | VNum n => VNum (n + 1)
              | _ => VNum 0
              end)
  | 2 => alloc (CObj [("last", nth 1 args VUndef)])
  | 3 => ret (VStr "done")
  | _ => ret VUndef
  end.

(** [[{ id: 1, v: 'a' }, { id: 2, v: 'b' }, { id: 2, v: 'z' }]] at
    location [3], the reducer map [{ a: 1, b: 2 }] of functions [1] and [2]
    at location [4], and the state [{ a: 5, extra: true }] at location
    [5]. *)
Definition demo_heap : heap :=
  [ CObj [("id", VNum 1); ("v", VStr "a")];
    CObj [("id", VNum 2); ("v", VStr "b")];
    CObj [("id", VNum 2); ("v", VStr "z")];
    CArr [VRef 0; VRef 1; VRef 2];
    CObj [("a", VFun 1); ("b", VFun 2)];
    CObj [("a", VNum 5); ("extra", VBool true)] ].

(** A second function table, of functions that do not touch the heap:
    [0] is [item => item], [1] is [() => 'done']. *)
Definition pure_call (f : fid) (args : list val) : M val :=
  match f with
  | 0 => ret (nth 0 args VUndef)
  | 1 => ret (VStr "done")
  | _ => ret VUndef
  end.

(** * Properties *)

(** ** Splitting and joining *)

Section SplitJoin.
Import JsString.

Variable c : ascii.

Lemma truthy_spec s : truthy s = true <-> s <> "".
Proof.
  unfold truthy. destruct (String.eqb_spec s ""); simpl; split; congruence.
Qed.

Lemma truthy_false s : truthy s = false <-> s = "".
Proof.
  unfold truthy. destruct (String.eqb_spec s ""); simpl; split; congruence.
Qed.

Lemma split_cons s : exists w ws, split c s = w :: ws.
Proof.
  induction s as [|a s [w [ws IH]]]; simpl; eauto.
  destruct (Ascii.eqb a c); eauto. rewrite IH. eauto.
Qed.

Lemma split_no_char s : has_char c s = false -> split c s = [s].
Proof.
  induction s as [|a s IH]; simpl; [reflexivity|].
  destruct (Ascii.eqb a c); [discriminate|].
  intros H. rewrite (IH H). reflexivity.
Qed.

(** A piece ends at the first separator. *)
Lemma split_app_sep w s :
  has_char c w = false ->
  split c (w +:+ String c s) = w :: split c s.
Proof.
  induction w as [|a w IH]; simpl.
  - intros _. rewrite Ascii.eqb_refl. reflexivity.
  - destruct (Ascii.eqb a c); [discriminate|].
    intros H. rewrite (IH H). reflexivity.
Qed.

Lemma split_pieces s : Forall (fun w => has_char c w = false) (split c s).
Proof.
  induction s as [|a s IH]; simpl.
  - repeat constructor.
  - destruct (Ascii.eqb a c) eqn:E.
    + constructor; [reflexivity | exact IH].
    + destruct (split c s) as [|w ws].
      * repeat constructor. simpl. rewrite E. reflexivity.
      * inversion IH; subst. constructor; [|assumption].
        simpl. rewrite E. assumption.
Qed.

(** Splitting undoes joining on the separator. *)
Lemma split_join segs :
  segs <> [] ->
  Forall (fun w => has_char c w = false) segs ->
  split c (join (String c "") segs) = segs.
Proof.
  induction segs as [|x segs IH]; [congruence|].
  intros _ HF. inversion HF as [|? ? Hx Hr]; subst.
  destruct segs as [|y segs].
  - simpl. apply split_no_char, Hx.
  - change (join (String c "") (x :: y :: segs))
      with (x +:+ String c (join (String c "") (y :: segs))).
    rewrite (split_app_sep _ _ Hx), IH; [reflexivity|discriminate|exact Hr].
Qed.

Lemma has_char_app s t :
  has_char c (s +:+ t) = has_char c s || has_char c t.
Proof.
  induction s as [|a s IH]; simpl; [reflexivity|].
  destruct (Ascii.eqb a c); [reflexivity | exact IH].
Qed.

Lemma has_char_join sep segs :
  has_char c sep = false ->
  Forall (fun w => has_char c w = false) segs ->
  has_char c (join sep segs) = false.
Proof.
  intros Hsep. induction 1 as [|x segs Hx HF IH]; [reflexivity|].
  destruct segs as [|y segs]; [exact Hx|].
  change (join sep (x :: y :: segs))
    with (x +:+ sep +:+ join sep (y :: segs)).
  rewrite !has_char_app, Hx, Hsep, IH. reflexivity.
Qed.

Lemma join_truthy sep x segs :
  truthy x = true -> truthy (join sep (x :: segs)) = true.
Proof.
  intros Hx. apply truthy_spec in Hx. apply truthy_spec.
  destruct x as [|a x]; [congruence|].
  destruct segs; simpl; discriminate.
Qed.

Lemma filter_all {A} (f : A -> bool) l :
  Forall (fun x => f x = true) l -> List.filter f l = l.
Proof.
  induction 1 as [|x l Hx _ IH]; simpl; [reflexivity|].
  rewrite Hx, IH. reflexivity.
Qed.

End SplitJoin.

(** ** PathCodec *)

Lemma pathToArr_truthy path :
  Forall (fun w => JsString.truthy w = true) (pathToArr path).
Proof.
  apply List.Forall_forall. intros w Hw.
  destruct path as [p|]; simpl in Hw; [|contradiction].
  destruct (JsString.truthy p); [|contradiction].
  apply filter_In in Hw. apply Hw.
Qed.

Lemma pathToArr_no_slash path :
  Forall (fun w => JsString.has_char "/" w = false) (pathToArr path).
Proof.
  apply List.Forall_forall. intros w Hw.
  destruct path as [p|]; simpl in Hw; [|contradiction].
  destruct (JsString.truthy p); [|contradiction].
  apply filter_In in Hw. destruct Hw as [Hw _].
  pose proof (split_pieces "/" p) as HF.
  rewrite List.Forall_forall in HF. apply HF, Hw.
Qed.

(** A non-empty string without a slash is its own single segment. *)
Lemma pathToArr_single s :
  JsString.truthy s = true ->
  JsString.has_char "/" s = false ->
  pathToArr (Some s) = [s].
Proof.
  intros Ht Hn. unfold pathToArr.
  rewrite Ht, (split_no_char _ _ Hn). simpl. rewrite Ht. reflexivity.
Qed.

(** The segments of a path that was joined from slash-free pieces. *)
Lemma pathToArr_join segs :
  Forall (fun w => JsString.has_char "/" w = false) segs ->
  pathToArr (Some (JsString.join "/" segs)) = List.filter JsString.truthy segs.
Proof.
  intros HF. destruct segs as [|x segs]; [reflexivity|].
  assert (Hs : JsString.split "/" (JsString.join "/" (x :: segs)) = x :: segs)
    by (apply split_join; [discriminate | exact HF]).
  unfold pathToArr.
  destruct (JsString.truthy (JsString.join "/" (x :: segs))) eqn:E.
  - rewrite Hs. reflexivity.
  - apply truthy_false in E. rewrite E in Hs. simpl in Hs.
    rewrite <- Hs. reflexivity.
Qed.

(** C5: [pathToArr] never yields an empty segment; the segments are the
    non-empty pieces between the slashes, in their order (leading, trailing
    and doubled slashes only contribute empty pieces, which are dropped);
    an undefined or empty path gives the empty array; and
    [pathToArr("/a//b/")] is [["a","b"]]. *)
Theorem pathToArr_segments :
  (forall path, ~ In "" (pathToArr path)) /\
  (forall segs,
      Forall (fun w => JsString.has_char "/" w = false) segs ->
      pathToArr (Some (JsString.join "/" segs))
      = List.filter JsString.truthy segs) /\
  pathToArr None = [] /\
  pathToArr (Some "") = [] /\
  pathToArr (Some "/a//b/") = ["a"; "b"].
Proof.
  split; [|split; [exact pathToArr_join | repeat split]].
  intros path Hin.
  pose proof (pathToArr_truthy path) as HF.
  rewrite List.Forall_forall in HF. specialize (HF _ Hin). discriminate.
Qed.

Lemma pathToArr_segments_witness :
  pathToArr (Some (JsString.join "/" [""; "a"; ""; "b"; ""])) = ["a"; "b"].
Proof.
  exact (proj1 (proj2 pathToArr_segments) [""; "a"; ""; "b"; ""]
           ltac:(repeat constructor)).
Defined.

(** C8: [getDotStrPath] and [getSlashStrPath] are idempotent: applied to
    their own output they return it unchanged. *)
Theorem path_str_idempotent :
  forall x,
    getDotStrPath (Some (getDotStrPath x)) = getDotStrPath x /\
    getSlashStrPath (Some (getSlashStrPath x)) = getSlashStrPath x.
Proof.
  intros x.
  pose proof (pathToArr_truthy x) as HT.
  pose proof (pathToArr_no_slash x) as HS.
  unfold getDotStrPath, getSlashStrPath.
  destruct (pathToArr x) as [|w ws] eqn:E; [split; reflexivity|].
  inversion HT as [|? ? Hw _]; subst.
  split.
  - assert (Hn : JsString.has_char "/" (JsString.join "." (w :: ws)) = false)
      by (apply has_char_join; [reflexivity | exact HS]).
    rewrite (pathToArr_single _ (join_truthy "." w ws Hw) Hn).
    reflexivity.
  - rewrite pathToArr_join by exact HS.
    rewrite (filter_all _ _ HT). reflexivity.
Qed.

(** ** MetaPathResolver *)

(** The traversal inside [pathFromMeta_obj] is [subcollections.map(pathFromMeta)]. *)
Lemma pathFromMeta_unfold collection doc subcollections storeAs :
  pathFromMeta (Some (mkMeta collection doc subcollections storeAs)) =
  match present storeAs with
  | Some s => inr s
  | None =>
      match present collection with
      | None => inl MissingCollectionError
      | Some c =>
          let basePath :=
            match present doc with
            | Some d => c +:+ "." +:+ d
            | None => c
            end in
          match subcollections with
          | None => inr basePath
          | Some subs =>
              match mapM pathFromMeta subs with
              | inl e => inl e
              | inr mappedCollections =>
                  inr (basePath +:+ "." +:+ JsString.join "." mappedCollections)
              end
          end
      end
  end.
Proof.
  simpl. destruct (present storeAs); [reflexivity|].
  destruct (present collection); [|reflexivity].
  destruct subcollections as [subs|]; [|reflexivity].
  match goal with
  | |- match ?a with _ => _ end = match ?b with _ => _ end =>
      replace a with b; [reflexivity|]
  end.
  induction subs as [|x subs IH]; simpl; [reflexivity|].
  rewrite IH. destruct x; reflexivity.
Qed.

Lemma mapM_inr {A B} (f : A -> exn + B) arr ys :
  mapM f arr = inr ys <-> Forall2 (fun x y => f x = inr y) arr ys.
Proof.
  revert ys. induction arr as [|x arr IH]; intros ys; simpl.
  - split; [intros [= <-]; constructor | intros H; inversion H; reflexivity].
  - split.
    + destruct (f x) as [e|y] eqn:Ex; [discriminate|].
      destruct (mapM f arr) as [e|ys'] eqn:Em; [discriminate|].
      intros [= <-]. constructor; [exact Ex | apply IH; reflexivity].
    + intros H. inversion H as [|? y ? ys' Hx Hr]; subst.
      rewrite Hx. apply IH in Hr. rewrite Hr. reflexivity.
Qed.

(** The first entry that throws decides the outcome. *)
Lemma mapM_inl {A B} (f : A -> exn + B) pre x post e :
  Forall (fun a => exists b, f a = inr b) pre ->
  f x = inl e ->
  mapM f (pre ++ x :: post) = inl e.
Proof.
  intros Hpre Hx. induction Hpre as [|a pre [b Ha] _ IH]; simpl.
  - rewrite Hx. reflexivity.
  - rewrite Ha, IH. reflexivity.
Qed.

(** Induction over a meta and the metas nested in its subcollections. *)
Lemma Meta_nested_ind (P : Meta -> Prop) :
  (forall collection doc storeAs, P (mkMeta collection doc None storeAs)) ->
  (forall collection doc subs storeAs,
      Forall (fun x => forall m, x = Some m -> P m) subs ->
      P (mkMeta collection doc (Some subs) storeAs)) ->
  forall m, P m.
Proof.
  intros Hleaf Hnode. fix IH 1.
  intros [collection doc [subs|] storeAs]; [|apply Hleaf].
  apply Hnode. revert subs. fix IHs 1.
  intros [|[m|] subs]; constructor.
  - intros m' [= <-]. apply IH.
  - apply IHs.
  - intros m' [=].
  - apply IHs.
Qed.

(** Whatever [pathFromMeta] throws is one of its two errors. *)
Lemma pathFromMeta_errors meta e :
  pathFromMeta meta = inl e ->
  e = MissingMetaError \/ e = MissingCollectionError.
Proof.
  destruct meta as [m|]; [|intros [= <-]; left; reflexivity].
  revert e. induction m as [collection doc storeAs
                           |collection doc subs storeAs IH]
    using Meta_nested_ind; intros e; rewrite pathFromMeta_unfold.
  - destruct (present storeAs); [discriminate|].
    destruct (present collection); [discriminate|].
    intros [= <-]. right. reflexivity.
  - destruct (present storeAs); [discriminate|].
    destruct (present collection); [|intros [= <-]; right; reflexivity].
    cbv zeta.
    destruct (mapM pathFromMeta subs) as [e'|ps] eqn:Em; [|discriminate].
    intros [= <-]. clear -IH Em.
    induction IH as [|x subs Hx _ IHsubs]; simpl in Em; [discriminate|].
    destruct (pathFromMeta x) as [ex|y] eqn:Ex.
    + injection Em as <-. destruct x as [m|].
      * apply (Hx m eq_refl). exact Ex.
      * injection Ex as <-. left. reflexivity.
    + destruct (mapM pathFromMeta subs); [|discriminate].
      injection Em as <-. apply IHsubs. reflexivity.
Qed.

(** C1: a meta with a (non-empty) collection, an optional doc, no storeAs
    and a non-empty sequence of subcollections resolves to its base path
    (the collection, followed by a dot and the doc when the doc is set), a
    dot, and the paths its subcollection entries resolve to, joined by dots
    in the order of the sequence. *)
Theorem pathFromMeta_subcollections :
  forall collection doc subs storeAs c paths,
    present storeAs = None ->
    present collection = Some c ->
    subs <> [] ->
    Forall2 (fun entry path => pathFromMeta entry = inr path) subs paths ->
    pathFromMeta (Some (mkMeta collection doc (Some subs) storeAs)) =
    inr (match doc with
         | Some d => if JsString.truthy d then c +:+ "." +:+ d else c
         | None => c
         end +:+ "." +:+ JsString.join "." paths).
Proof.
  intros collection doc subs storeAs c paths Hs Hc _ Hsubs.
  rewrite pathFromMeta_unfold, Hs, Hc. cbv zeta.
  apply mapM_inr in Hsubs. rewrite Hsubs.
  destruct doc as [d|]; simpl; [destruct (JsString.truthy d)|]; reflexivity.
Qed.

Lemma pathFromMeta_subcollections_witness :
  pathFromMeta
    (Some (mkMeta (Some "c") (Some "d")
             (Some [Some (mkMeta (Some "s1") None None None);
                    Some (mkMeta (Some "s2") (Some "d2") None None)])
             None))
  = inr "c.d.s1.s2.d2".
Proof.
  apply (pathFromMeta_subcollections
           (Some "c") (Some "d")
           [Some (mkMeta (Some "s1") None None None);
            Some (mkMeta (Some "s2") (Some "d2") None None)]
           None "c" ["s1"; "s2.d2"]).
  - reflexivity.
  - reflexivity.
  - discriminate.
  - repeat constructor.
Defined.

(** C2: when storeAs is set (a non-empty string) [pathFromMeta] returns it
    as it is, whatever collection, doc and subcollections hold. *)
Theorem pathFromMeta_storeAs :
  forall collection doc subcollections s,
    s <> "" ->
    pathFromMeta (Some (mkMeta collection doc subcollections (Some s))) = inr s.
Proof.
  intros collection doc subcollections s Hs.
  rewrite pathFromMeta_unfold. simpl.
  apply truthy_spec in Hs. rewrite Hs. reflexivity.
Qed.

Lemma pathFromMeta_storeAs_witness :
  pathFromMeta (Some (mkMeta (Some "ignored") None (Some [None]) (Some "x")))
  = inr "x".
Proof.
  apply (pathFromMeta_storeAs (Some "ignored") None (Some [None]) "x").
  discriminate.
Defined.

(** C3: an absent meta fails with [MissingMetaError]; a meta with neither
    storeAs nor collection fails with [MissingCollectionError]; when an
    entry of the subcollections fails, its error is the outcome of the
    whole resolution; and a path is returned only when every entry
    resolved, so no partial path comes back. *)
Theorem pathFromMeta_failures :
  pathFromMeta None = inl MissingMetaError /\
  (forall collection doc subcollections storeAs,
      present storeAs = None ->
      present collection = None ->
      pathFromMeta (Some (mkMeta collection doc subcollections storeAs))
      = inl MissingCollectionError) /\
  (forall collection doc storeAs c pre entry post e,
      present storeAs = None ->
      present collection = Some c ->
      Forall (fun x => exists p, pathFromMeta x = inr p) pre ->
      pathFromMeta entry = inl e ->
      pathFromMeta
        (Some (mkMeta collection doc (Some (pre ++ entry :: post)) storeAs))
      = inl e /\
      (e = MissingMetaError \/ e = MissingCollectionError)) /\
  (forall collection doc subs storeAs path,
      present storeAs = None ->
      pathFromMeta (Some (mkMeta collection doc (Some subs) storeAs))
      = inr path ->
      Forall (fun x => exists p, pathFromMeta x = inr p) subs).
Proof.
  split; [reflexivity|]. split; [|split].
  - intros collection doc subcollections storeAs Hs Hc.
    rewrite pathFromMeta_unfold, Hs, Hc. reflexivity.
  - intros collection doc storeAs c pre entry post e Hs Hc Hpre He.
    split; [|exact (pathFromMeta_errors _ _ He)].
    rewrite pathFromMeta_unfold, Hs, Hc. cbv zeta.
    rewrite (mapM_inl _ _ _ _ _ Hpre He). reflexivity.
  - intros collection doc subs storeAs path Hs.
    rewrite pathFromMeta_unfold, Hs.
    destruct (present collection); [|discriminate]. cbv zeta.
    destruct (mapM pathFromMeta subs) as [e|ps] eqn:Em; [discriminate|].
    intros _. apply mapM_inr in Em.
    induction Em; constructor; eauto.
Qed.

Lemma pathFromMeta_failures_witness :
  pathFromMeta (Some (mkMeta None None None None))
  = inl MissingCollectionError /\
  pathFromMeta
    (Some (mkMeta (Some "c") None
             (Some [Some (mkMeta (Some "s1") None None None);
                    Some (mkMeta None (Some "d") None None);
                    None])
             None))
  = inl MissingCollectionError /\
  Forall (fun x => exists p, pathFromMeta x = inr p)
    [Some (mkMeta (Some "s1") None None None)].
Proof.
  destruct pathFromMeta_failures as (_ & Hcoll & Hnested & Hfull).
  split; [|split].
  - apply (Hcoll None None None None); reflexivity.
  - apply (Hnested (Some "c") None None "c"
             [Some (mkMeta (Some "s1") None None None)]
             (Some (mkMeta None (Some "d") None None))
             [None] MissingCollectionError).
    + reflexivity.
    + reflexivity.
    + repeat constructor. exists "s1". reflexivity.
    + reflexivity.
  - apply (Hfull (Some "c") None
             [Some (mkMeta (Some "s1") None None None)] None "c.s1");
      reflexivity.
Defined.

Lemma append_nonempty_neq s t : t <> "" -> s +:+ t <> s.
Proof.
  intros Ht. induction s as [|a s IH]; simpl; [exact Ht|].
  intros [= E]. exact (IH E).
Qed.

(** C9: when subcollections is present but empty, the result is not the
    bare base path (what the same meta without subcollections resolves
    to): a dot follows it, as in ["c.d."]. *)
Theorem pathFromMeta_empty_subcollections :
  (forall collection doc storeAs c,
      present storeAs = None ->
      present collection = Some c ->
      pathFromMeta (Some (mkMeta collection doc (Some []) storeAs)) =
      inr (match doc with
           | Some d => if JsString.truthy d then c +:+ "." +:+ d else c
           | None => c
           end +:+ ".") /\
      pathFromMeta (Some (mkMeta collection doc (Some []) storeAs)) <>
      pathFromMeta (Some (mkMeta collection doc None storeAs))) /\
  pathFromMeta (Some (mkMeta (Some "c") (Some "d") (Some []) None))
  = inr "c.d.".
Proof.
  split; [|reflexivity].
  intros collection doc storeAs c Hs Hc.
  rewrite !pathFromMeta_unfold, Hs, Hc. simpl.
  split.
  - destruct doc as [d|]; simpl; [destruct (JsString.truthy d)|]; reflexivity.
  - intros [= E]. revert E. apply append_nonempty_neq. discriminate.
Qed.

Lemma pathFromMeta_empty_subcollections_witness :
  pathFromMeta (Some (mkMeta (Some "c") None (Some []) (Some "")))
  = inr "c.".
Proof.
  apply (proj1 pathFromMeta_empty_subcollections (Some "c") None (Some "") "c");
    reflexivity.
Defined.

(** ** Heaps *)

Lemma frame_refl n (h : heap) : n <= length h -> frame n h h.
Proof. intros Hn. repeat split; auto. Qed.

Lemma frame_trans n (h1 h2 h3 : heap) :
  frame n h1 h2 -> frame n h2 h3 -> frame n h1 h3.
Proof.
  intros (Hn1 & Hl1 & H1) (Hn2 & Hl2 & H2). repeat split; [lia..|].
  intros l Hl. rewrite H2, H1 by exact Hl. reflexivity.
Qed.

Lemma frame_prefix n (h h' : heap) :
  n <= length h -> h `prefix_of` h' -> frame n h h'.
Proof.
  intros Hn Hp. repeat split; [exact Hn | apply prefix_length, Hp |].
  intros l Hl. symmetry. apply prefix_lookup_lt; [lia | exact Hp].
Qed.

Lemma frame_insert n (h : heap) l c :
  n <= length h -> n <= l -> frame n h (<[l := c]> h).
Proof.
  intros Hn Hl. repeat split; [exact Hn | rewrite length_insert; lia |].
  intros l' Hl'. apply list_lookup_insert_ne. lia.
Qed.

Lemma frame_alloc n (h : heap) c : n <= length h -> frame n h (h ++ [c]).
Proof. intros Hn. apply frame_prefix; [exact Hn | apply prefix_app_r; reflexivity]. Qed.

Lemma frame_weaken n m (h h' : heap) : m <= n -> frame n h h' -> frame m h h'.
Proof.
  intros Hm (Hn & Hl & H). repeat split; [lia | lia |].
  intros l Hlt. apply H. lia.
Qed.

(** Reading through a reference below [n] is not affected. *)
Lemma read_frame n h h' l k :
  frame n h h' -> l < n -> read h' (VRef l) k = read h (VRef l) k.
Proof. intros (_ & _ & H) Hl. unfold read. rewrite (H l Hl). reflexivity. Qed.

Lemma own_props_frame n h h' l :
  frame n h h' -> l < n -> own_props h' (VRef l) = own_props h (VRef l).
Proof. intros (_ & _ & H) Hl. unfold own_props. rewrite (H l Hl). reflexivity. Qed.

Lemma read_stable h h' v k x :
  read h v k = inr x -> frame (length h) h h' -> read h' v k = inr x.
Proof.
  intros Hr Hf. destruct v as [| | | | |f|l|]; try exact Hr.
  rewrite <- Hr. apply (read_frame _ _ _ _ _ Hf).
  destruct (decide (l < length h)) as [Hl|Hl]; [exact Hl|].
  unfold read in Hr. rewrite lookup_ge_None_2 in Hr by lia. discriminate.
Qed.

Lemma bind_ret {A} (m : M A) h : bind m ret h = m h.
Proof. unfold bind, ret. destruct (m h) as [[e|x] h']; reflexivity. Qed.

(** ** Object properties *)


Lemma assign_prop_keys k k' x props :
  In k (List.map fst (assign_prop k' x props)) <->
  k = k' \/ In k (List.map fst props).
Proof.
  induction props as [|[k0 y] props IH]; simpl.
  - intuition congruence.
  - destruct (String.eqb_spec k0 k') as [->|Hne]; simpl; [intuition congruence|].
    rewrite IH. intuition congruence.
Qed.

Lemma assign_prop_NoDup k x props :
  List.NoDup (List.map fst props) ->
  List.NoDup (List.map fst (assign_prop k x props)).
Proof.
  induction props as [|[k0 y] props IH]; simpl; intros Hnd.
  - constructor; [intros [] | constructor].
  - destruct (String.eqb_spec k0 k) as [->|Hne]; [exact Hnd|].
    apply List.NoDup_cons_iff in Hnd. destruct Hnd as [Hk0 Hnd].
    simpl. apply List.NoDup_cons; [|apply IH; exact Hnd].
    rewrite assign_prop_keys. intros [->|Hin]; [congruence|auto].
Qed.

Lemma lookup_assign_eq k x props : lookup_prop k (assign_prop k x props) = x.
Proof.
  induction props as [|[k0 y] props IH]; simpl.
  - rewrite String.eqb_refl. reflexivity.
  - destruct (String.eqb_spec k0 k) as [->|Hne]; simpl.
    + rewrite String.eqb_refl. reflexivity.
    + destruct (String.eqb_spec k0 k); [congruence | exact IH].
Qed.

Lemma lookup_assign_ne k k' x props :
  k <> k' -> lookup_prop k (assign_prop k' x props) = lookup_prop k props.
Proof.
  intros Hne. induction props as [|[k0 y] props IH]; simpl.
  - destruct (String.eqb_spec k' k); [congruence | reflexivity].
  - destruct (String.eqb_spec k0 k') as [->|Hne']; simpl.
    + destruct (String.eqb_spec k' k); [congruence | reflexivity].
    + destruct (String.eqb_spec k0 k); [reflexivity | exact IH].
Qed.

Lemma assign_all_keys k kvs : forall props,
  In k (List.map fst (assign_all kvs props)) <->
  In k (List.map fst props) \/ In k (List.map fst kvs).
Proof.
  induction kvs as [|[k' x] kvs IH]; intros props; simpl.
  - intuition.
  - unfold assign_all in *. simpl. rewrite IH, assign_prop_keys.
    intuition congruence.
Qed.

Lemma assign_all_NoDup kvs : forall props,
  List.NoDup (List.map fst props) ->
  List.NoDup (List.map fst (assign_all kvs props)).
Proof.
  induction kvs as [|[k x] kvs IH]; intros props Hnd; [exact Hnd|].
  unfold assign_all in *. simpl. apply IH, assign_prop_NoDup, Hnd.
Qed.

Lemma assign_all_lookup_notin k kvs : forall props,
  ~ In k (List.map fst kvs) ->
  lookup_prop k (assign_all kvs props) = lookup_prop k props.
Proof.
  induction kvs as [|[k' x] kvs IH]; intros props Hn; [reflexivity|].
  unfold assign_all in *. simpl in *. rewrite IH by tauto.
  apply lookup_assign_ne. intros ->. tauto.
Qed.

(** A key that was assigned holds one of the values assigned to it. *)
Lemma assign_all_lookup k kvs : forall props,
  In k (List.map fst kvs) ->
  In (k, lookup_prop k (assign_all kvs props)) kvs.
Proof.
  induction kvs as [|[k' x] kvs IH]; intros props Hin; [destruct Hin|].
  destruct (in_dec string_dec k (List.map fst kvs)) as [Hlater|Hlast].
  - right. unfold assign_all in *. simpl. apply IH, Hlater.
  - destruct Hin as [Hk|Hin]; [|contradiction]. simpl in Hk. subst k'.
    left. unfold assign_all in *. simpl.
    pose proof (assign_all_lookup_notin k kvs (assign_prop k x props) Hlast) as E.
    unfold assign_all in E. rewrite E, lookup_assign_eq. reflexivity.
Qed.



Lemma reduce_ext {A B} (step step' : B -> A -> M B) arr :
  (forall acc x h, step acc x h = step' acc x h) ->
  forall acc h, reduce step arr acc h = reduce step' arr acc h.
Proof.
  intros Hs. induction arr as [|x arr IH]; intros acc h; [reflexivity|].
  cbn [reduce]. unfold bind. rewrite Hs.
  destruct (step' acc x h) as [[e|acc'] h']; [reflexivity | apply IH].
Qed.

(** ** Inherited members and assignment *)

Lemma own_prop_None k props :
  own_prop k props = None <-> ~ In k (List.map fst props).
Proof.
  induction props as [|[k' x] props IH]; simpl; [tauto|].
  destruct (String.eqb_spec k' k) as [->|Hne].
  - split; [discriminate | intros H; exfalso; apply H; left; reflexivity].
  - rewrite IH. intuition congruence.
Qed.

Lemma own_prop_Some k props x :
  own_prop k props = Some x -> lookup_prop k props = x.
Proof.
  induction props as [|[k' y] props IH]; simpl; [discriminate|].
  destruct (String.eqb k' k); [congruence | exact IH].
Qed.

Lemma member_own k props :
  In k (List.map fst props) -> member k props = lookup_prop k props.
Proof.
  intros Hin. unfold member. destruct (own_prop k props) as [x|] eqn:E.
  - symmetry. apply own_prop_Some, E.
  - apply own_prop_None in E. contradiction.
Qed.


Lemma writes_id kvs :
  ~ In "__proto__" (List.map fst kvs) -> writes kvs = kvs.
Proof.
  intros Hn. unfold writes. apply filter_all, List.Forall_forall.
  intros [k x] Hin. simpl.
  destruct (String.eqb_spec k "__proto__") as [->|_]; [|reflexivity].
  exfalso. apply Hn. apply (in_map fst) in Hin. exact Hin.
Qed.

(** On an object without an own [__proto__], assigning is defining the
    properties whose key is not [__proto__]. *)
Lemma put_all_writes kvs : forall props,
  ~ In "__proto__" (List.map fst props) ->
  put_all kvs props = assign_all (writes kvs) props.
Proof.
  induction kvs as [|[k x] kvs IH]; intros props Hn; [reflexivity|].
  unfold put_all, assign_all, writes in *. simpl.
  destruct (String.eqb_spec k "__proto__") as [->|Hne]; simpl.
  - unfold put. apply own_prop_None in Hn as Hown. rewrite Hown. simpl.
    apply IH, Hn.
  - assert (Hput : put k x props = assign_prop k x props).
    { unfold put. destruct (own_prop k props); [reflexivity|].
      destruct (String.eqb_spec k "__proto__"); [contradiction | reflexivity]. }
    rewrite Hput. apply IH. rewrite assign_prop_keys. intros [E|Hin]; auto.
Qed.

(** ** Callbacks that only allocate *)

Section ReducersSpec.

Variable call : fid -> list val -> M val.

(** Calling a function leaves the cells that exist as they are: reducers
    and update callbacks do not mutate, they build new values. *)
Hypothesis call_extends :
  forall f args h r h', call f args h = (r, h') -> h `prefix_of` h'.

Lemma callv_extends fn args h r h' :
  callv call fn args h = (r, h') -> h `prefix_of` h'.
Proof.
  destruct fn; simpl; try (intros [= _ <-]; reflexivity).
  apply call_extends.
Qed.

(** *** [Array_map] *)

Section ArrayMap.

Variable f : val -> M val.
Hypothesis f_extends :
  forall x h r h', f x h = (r, h') -> h `prefix_of` h'.

Variable hI : heap.

Lemma Array_map_fill elems : forall acc h,
  frame (length hI) hI h ->
  h !! length hI = Some (CArr acc) ->
  match reduce (fun result item =>
                  let* mapped := f item in
                  let* _ := push result mapped in
                  ret result)
               elems (VRef (length hI)) h with
  | (inr v, h') =>
      v = VRef (length hI) /\
      exists rs,
        h' !! length hI = Some (CArr (acc ++ rs)) /\
        frame (length hI) hI h' /\
        Forall2 (maps_to f hI) elems rs
  | (inl e, _) => throws_at f hI elems e
  end.
Proof.
  unfold throws_at.
  set (step := fun result item : val => _).
  induction elems as [|x elems IH]; intros acc h Hfr Hcell.
  - cbn [reduce]. unfold ret. split; [reflexivity|]. exists [].
    rewrite app_nil_r.
    split; [exact Hcell|]. split; [exact Hfr | constructor].
  - cbn [reduce]. unfold bind at 1, step at 1. unfold bind.
    destruct (f x h) as [[e|y] h1] eqn:Ef.
    + exists x, h, h1. split; [left; reflexivity|]. split; assumption.
    + pose proof (f_extends _ _ _ _ Ef) as Hp.
      pose proof (prefix_length _ _ Hp) as Hlen.
      assert (Hlt : length hI < length h)
        by (apply lookup_lt_Some in Hcell; exact Hcell).
      assert (Hcell1 : h1 !! length hI = Some (CArr acc))
        by (rewrite <- (prefix_lookup_lt h h1) by (lia || exact Hp);
            exact Hcell).
      unfold push. rewrite Hcell1. unfold ret at 1.
      assert (Hfr1 : frame (length hI) hI h1).
      { apply frame_trans with h; [exact Hfr|].
        apply frame_prefix; [lia | exact Hp]. }
      specialize (IH (acc ++ [y]) (<[length hI := CArr (acc ++ [y])]> h1)).
      lapply IH.
      2:{ apply frame_trans with h1; [exact Hfr1|].
          apply frame_insert; lia. }
      clear IH; intros IH. lapply IH.
      2:{ apply list_lookup_insert_eq. lia. }
      clear IH; intros IH.
      destruct (reduce step elems _ _) as [[e|v] h'].
      * destruct IH as (x' & h0 & h2 & Hin & Hf0 & Hx).
        exists x', h0, h2. split; [right; exact Hin|]. split; assumption.
      * destruct IH as (-> & rs & Hres & Hfr' & HF).
        split; [reflexivity|]. exists (y :: rs).
        rewrite <- app_assoc in Hres.
        split; [exact Hres|]. split; [exact Hfr'|].
        constructor; [|exact HF].
        exists h, h1. split; assumption.
Qed.

Lemma Array_map_run la elems :
  hI !! la = Some (CArr elems) ->
  match Array_map f (VRef la) hI with
  | (inr v, h') =>
      v = VRef (length hI) /\
      exists rs,
        h' !! length hI = Some (CArr rs) /\
        frame (length hI) hI h' /\
        Forall2 (maps_to f hI) elems rs
  | (inl e, _) => throws_at f hI elems e
  end.
Proof.
  intros Hla. unfold Array_map, bind at 1, elements. rewrite Hla.
  unfold bind at 1, alloc.
  apply (Array_map_fill elems [] (hI ++ [CArr []])).
  - apply frame_alloc. reflexivity.
  - apply list_lookup_middle. reflexivity.
Qed.

End ArrayMap.

(** *** [updateItemInArray] *)

Lemma Forall2_refine {A B} (P : A -> Prop) (R R' : A -> B -> Prop) l k :
  (forall x y, P x -> R x y -> R' x y) ->
  Forall P l -> Forall2 R l k -> Forall2 R' l k.
Proof.
  intros HR HP HF. induction HF as [|x y l k Hxy _ IH]; constructor.
  - apply HR; [|exact Hxy]. inversion HP; assumption.
  - apply IH. inversion HP; assumption.
Qed.

(** What [updateItemInArray] does, whether it returns or throws. *)
Lemma updateItemInArray_run la items itemId cb h :
  h !! la = Some (CArr items) ->
  Forall (fun item => exists item_id, read h item "id" = inr item_id) items ->
  match updateItemInArray call (VRef la) itemId cb h with
  | (inr v, h') =>
      v = VRef (length h) /\
      exists rs,
        h' !! length h = Some (CArr rs) /\
        frame (length h) h h' /\
        Forall2 (fun item r =>
                   if has_id h itemId item
                   then maps_to (fun x => callv call cb [x]) h item r
                   else r = item)
                items rs
  | (inl e, _) =>
      throws_at (fun x => callv call cb [x]) h
        (List.filter (has_id h itemId) items) e
  end.
Proof.
  intros Hla Hids. unfold updateItemInArray.
  set (f := fun item : val => _).
  assert (Hstep : forall item h0,
             (exists item_id, read h item "id" = inr item_id) ->
             frame (length h) h h0 ->
             f item h0 = if has_id h itemId item
                         then callv call cb [item] h0
                         else (inr item, h0)).
  { intros item h0 [item_id Hid] Hfr. unfold f, bind at 1, get, has_id.
    rewrite (read_stable _ _ _ _ _ Hid Hfr), Hid.
    destruct (strict_eq item_id itemId); simpl; [apply bind_ret | reflexivity]. }
  assert (Hext : forall x h0 r h1, f x h0 = (r, h1) -> h0 `prefix_of` h1).
  { intros x h0 r h1. unfold f, bind at 1, get.
    destruct (read h0 x "id") as [e|item_id]; [intros [= _ <-]; reflexivity|].
    destruct (negb (strict_eq item_id itemId)); [intros [= _ <-]; reflexivity|].
    rewrite bind_ret. apply callv_extends. }
  pose proof (Array_map_run f Hext h la items Hla) as Hrun.
  destruct (Array_map f (VRef la) h) as [[e|v] h'].
  - destruct Hrun as (x & h0 & h1 & Hin & Hfr & Hx).
    rewrite List.Forall_forall in Hids.
    rewrite (Hstep x h0 (Hids x Hin) Hfr) in Hx.
    exists x, h0, h1. destruct (has_id h itemId x) eqn:Eid; [|discriminate].
    split; [apply filter_In; split; assumption|]. split; assumption.
  - destruct Hrun as (-> & rs & Hrs & Hfr & HF).
    split; [reflexivity|]. exists rs.
    split; [exact Hrs|]. split; [exact Hfr|].
    refine (Forall2_refine _ _ _ _ _ _ Hids HF).
    intros x y Hid (h0 & h1 & Hfr0 & Hx).
    rewrite (Hstep x h0 Hid Hfr0) in Hx.
    destruct (has_id h itemId x).
    + exists h0, h1. split; assumption.
    + injection Hx as <- _. reflexivity.
Qed.



(** *** [combineReducers] *)

Section Fill.

Variable g : string -> M val.
Hypothesis g_extends :
  forall k h r h', g k h = (r, h') -> h `prefix_of` h'.

Variable hI : heap.

(** Filling the object at [length hI] key by key. *)
Lemma combine_fill keys : forall acc h,
  frame (length hI) hI h ->
  h !! length hI = Some (CObj acc) ->
  match reduce (fun nextState key =>
                  let* next := g key in
                  let* _ := set nextState key next in
                  ret nextState)
               keys (VRef (length hI)) h with
  | (inr v, h') =>
      v = VRef (length hI) /\
      exists vals,
        h' !! length hI = Some (CObj (put_all (combine keys vals) acc)) /\
        frame (length hI) hI h' /\
        Forall2 (maps_to g hI) keys vals
  | (inl e, _) => throws_at g hI keys e
  end.
Proof.
  unfold throws_at.
  set (step := fun (nextState : val) (key : string) => _).
  induction keys as [|k keys IH]; intros acc h Hfr Hcell.
  - cbn [reduce]. unfold ret. split; [reflexivity|]. exists [].
    split; [exact Hcell|]. split; [exact Hfr | constructor].
  - cbn [reduce]. unfold bind at 1, step at 1. unfold bind.
    destruct (g k h) as [[e|y] h1] eqn:Eg.
    + exists k, h, h1. split; [left; reflexivity|]. split; assumption.
    + pose proof (g_extends _ _ _ _ Eg) as Hp.
      pose proof (prefix_length _ _ Hp) as Hlen.
      assert (Hlt : length hI < length h)
        by (apply lookup_lt_Some in Hcell; exact Hcell).
      assert (Hcell1 : h1 !! length hI = Some (CObj acc))
        by (rewrite <- (prefix_lookup_lt h h1) by (lia || exact Hp);
            exact Hcell).
      unfold set. rewrite Hcell1. unfold ret at 1.
      assert (Hfr1 : frame (length hI) hI h1).
      { apply frame_trans with h; [exact Hfr|].
        apply frame_prefix; [lia | exact Hp]. }
      specialize (IH (put k y acc)
                    (<[length hI := CObj (put k y acc)]> h1)).
      lapply IH.
      2:{ apply frame_trans with h1; [exact Hfr1|].
          apply frame_insert; lia. }
      clear IH; intros IH. lapply IH.
      2:{ apply list_lookup_insert_eq. lia. }
      clear IH; intros IH.
      destruct (reduce step keys _ _) as [[e|v] h'].
      * destruct IH as (k' & h0 & h2 & Hin & Hf0 & Hx).
        exists k', h0, h2. split; [right; exact Hin|]. split; assumption.
      * destruct IH as (-> & vals & Hres & Hfr' & HF).
        split; [reflexivity|]. exists (y :: vals).
        split; [exact Hres|]. split; [exact Hfr'|].
        constructor; [|exact HF].
        exists h, h1. split; assumption.
Qed.

End Fill.

(** What the combined reducer does, whether it returns or throws; [h1]
    is the heap once the default [state = {}] has been applied. *)
Lemma combineReducers_run lr rprops state action h :
  h !! lr = Some (CObj rprops) ->
  (state = VUndef \/
   exists ls sprops, state = VRef ls /\ h !! ls = Some (CObj sprops)) ->
  exists h1,
    frame (length h) h h1 /\
    VRef (length h1) <> state /\
    let g := fun key =>
               callv call (lookup_prop key rprops)
                 [substate h state key; action] in
    match combineReducers call (VRef lr) state action h with
    | (inr v, h') =>
        v = VRef (length h1) /\
        exists vals,
          h' !! length h1
          = Some (CObj (put_all (combine (List.map fst rprops) vals) [])) /\
          frame (length h1) h1 h' /\
          Forall2 (maps_to g h1) (List.map fst rprops) vals
    | (inl e, _) => throws_at g h1 (List.map fst rprops) e
    end.
Proof.
  intros Hlr Hstate.
  assert (Hlrlt : lr < length h) by (apply lookup_lt_Some in Hlr; exact Hlr).
  assert (Hdef : exists state' h1,
             match state with
             | VUndef => alloc (CObj [])
             | _ => ret state
             end h = (inr state', h1) /\
             frame (length h) h h1 /\
             VRef (length h1) <> state /\
             forall k h0, frame (length h1) h1 h0 ->
                          read h0 state' k = inr (substate h state k)).
  { destruct Hstate as [->|(ls & sprops & -> & Hls)].
    - exists (VRef (length h)), (h ++ [CObj []]).
      split; [reflexivity|]. split; [apply frame_alloc; reflexivity|].
      split; [discriminate|].
      intros k h0 Hfr0. rewrite (read_frame _ _ _ _ k Hfr0).
      + unfold read. rewrite list_lookup_middle by reflexivity. reflexivity.
      + rewrite length_app. simpl. lia.
    - exists (VRef ls), h.
      assert (Hlslt : ls < length h)
        by (apply lookup_lt_Some in Hls; exact Hls).
      split; [reflexivity|]. split; [apply frame_refl; reflexivity|].
      split; [intros [= E]; lia|].
      intros k h0 Hfr0. rewrite (read_frame _ _ _ _ k Hfr0 Hlslt).
      unfold read, substate. rewrite Hls. reflexivity. }
  destruct Hdef as (state' & h1 & Hdef & Hfr1 & Hfresh & Hsub).
  exists h1. split; [exact Hfr1|]. split; [exact Hfresh|]. intros g.
  assert (Hlr1 : h1 !! lr = Some (CObj rprops)).
  { destruct Hfr1 as (_ & _ & Hsame). rewrite Hsame; assumption. }
  assert (Hlrlt1 : lr < length h1)
    by (apply lookup_lt_Some in Hlr1; exact Hlr1).
  set (g' := fun key : string =>
               let* reducer := get (VRef lr) key in
               let* substate := get state' key in
               callv call reducer [substate; action]).
  assert (Hg : forall k h0,
             In k (List.map fst rprops) ->
             frame (length h1) h1 h0 -> g' k h0 = g k h0).
  { intros k h0 Hin Hfr0. unfold g', g, bind, get.
    rewrite (read_frame _ _ _ _ k Hfr0 Hlrlt1), (Hsub k h0 Hfr0).
    unfold read. rewrite Hlr1, (member_own _ _ Hin). reflexivity. }
  assert (Hext : forall k h0 r h2, g' k h0 = (r, h2) -> h0 `prefix_of` h2).
  { intros k h0 r h2. unfold g', bind, get.
    destruct (read h0 (VRef lr) k) as [e|reducer]; [intros [= _ <-]; reflexivity|].
    destruct (read h0 state' k) as [e|sub]; [intros [= _ <-]; reflexivity|].
    apply callv_extends. }
  pose proof (combine_fill g' Hext h1 (List.map fst rprops) [] (h1 ++ [CObj []])
                (frame_alloc _ _ _ (le_n _))
                (list_lookup_middle _ _ _ _ eq_refl)) as Hfill.
  unfold combineReducers. unfold bind at 1. rewrite Hdef.
  unfold bind at 1, Object_keys, own_props. rewrite Hlr1.
  unfold bind at 1, alloc.
  match goal with
  | |- context [reduce ?step _ _ _] =>
      rewrite (reduce_ext step
                 (fun nextState key =>
                    let* next := g' key in
                    let* _ := set nextState key next in
                    ret nextState))
  end.
  2:{ intros acc k h0. unfold g', bind.
      destruct (get (VRef lr) k h0) as [[e|reducer] h2]; [reflexivity|].
      destruct (get state' k h2) as [[e|sub] h3]; reflexivity. }
  unfold throws_at in *.
  destruct (reduce _ _ _ _) as [[e|v] h'].
  - destruct Hfill as (k & h0 & h2 & Hin & Hfr0 & Hk).
    exists k, h0, h2. split; [exact Hin|]. split; [exact Hfr0|].
    rewrite <- Hg by assumption. exact Hk.
  - destruct Hfill as (-> & vals & Hres & Hfr' & HF).
    split; [reflexivity|]. exists vals.
    split; [exact Hres|]. split; [exact Hfr'|].
    refine (Forall2_refine (fun k => In k (List.map fst rprops)) _ _ _ _ _ _ HF).
    + intros k x Hin (h0 & h2 & Hfr0 & Hk). exists h0, h2.
      split; [exact Hfr0|]. rewrite <- Hg by assumption. exact Hk.
    + apply List.Forall_forall. auto.
Qed.


End ReducersSpec.

(** ** PreservationPolicy *)

(** C7: a preserve setting that is no function, is not [true] and is no
    array makes [preserveValuesFromState] throw
    [InvalidPreserveSettingError], whatever the states are; so do, in
    particular, [false], [null], [undefined], every number (such as [42]),
    every string and every plain object. *)
Theorem preserveValuesFromState_invalid :
  forall call pick state nextState h,
    (forall preserveSetting,
        isFunction preserveSetting = false ->
        preserveSetting <> VBool true ->
        isArray preserveSetting h = (inr false, h) ->
        preserveValuesFromState call pick state preserveSetting nextState h
        = (inl InvalidPreserveSettingError, h)) /\
    (forall n s,
        Forall (fun preserveSetting =>
                  preserveValuesFromState call pick state preserveSetting
                    nextState h
                  = (inl InvalidPreserveSettingError, h))
               [VBool false; VNull; VUndef; VNum 42; VNum n; VStr s]) /\
    (forall l props,
        h !! l = Some (CObj props) ->
        preserveValuesFromState call pick state (VRef l) nextState h
        = (inl InvalidPreserveSettingError, h)).
Proof.
  intros call pick state nextState h.
  assert (Hgen : forall preserveSetting,
             isFunction preserveSetting = false ->
             preserveSetting <> VBool true ->
             isArray preserveSetting h = (inr false, h) ->
             preserveValuesFromState call pick state preserveSetting nextState h
             = (inl InvalidPreserveSettingError, h)).
  { intros ps Hfun Htrue Harr. unfold preserveValuesFromState.
    rewrite Hfun.
    assert (Hb : isBoolean ps && truthy ps = false)
      by (destruct ps as [| |[|]| | | | |]; try reflexivity; congruence).
    rewrite Hb. unfold bind. rewrite Harr. reflexivity. }
  split; [exact Hgen|]. split.
  - intros n s. repeat constructor; apply Hgen; (reflexivity || discriminate).
  - intros l props Hl. apply Hgen; [reflexivity | discriminate |].
    unfold isArray. rewrite Hl. reflexivity.
Qed.

Lemma preserveValuesFromState_invalid_witness :
  preserveValuesFromState demo_call pick_own (VRef 5) (VNum 42) VUndef demo_heap
  = (inl InvalidPreserveSettingError, demo_heap) /\
  preserveValuesFromState demo_call pick_own (VRef 5) (VRef 4) VUndef demo_heap
  = (inl InvalidPreserveSettingError, demo_heap).
Proof.
  destruct (preserveValuesFromState_invalid
              demo_call pick_own (VRef 5) VUndef demo_heap)
    as (Hgen & _ & Hobj).
  split.
  - apply (Hgen (VNum 42)); [reflexivity | discriminate | reflexivity].
  - apply (Hobj 4 [("a", VFun 1); ("b", VFun 2)]). reflexivity.
Defined.

(** ** The concrete program *)

Lemma demo_call_extends f args h r h' :
  demo_call f args h = (r, h') -> h `prefix_of` h'.
Proof.
  destruct f as [|[|[|[|f]]]]; simpl; unfold alloc, ret;
    intros [= _ <-]; try reflexivity; apply prefix_app_r; reflexivity.
Qed.





(** [updateItemInArray(items, 2, item => ({ ...item, v: 'c' }))] replaces
    both items with id [2] and keeps the first item's reference. *)
Example updateItemInArray_demo :
  updateItemInArray demo_call (VRef 3) (VNum 2) (VFun 0) demo_heap
  = (inr (VRef 6),
     demo_heap ++ [CArr [VRef 0; VRef 7; VRef 8];
                   CObj [("id", VNum 2); ("v", VStr "c")];
                   CObj [("id", VNum 2); ("v", VStr "c")]]).
Proof. vm_compute. reflexivity. Qed.

(** [combineReducers({ a, b })({ a: 5, extra: true }, 'tick')] is
    [{ a: 6, b: { last: 'tick' } }]. *)
Example combineReducers_demo :
  combineReducers demo_call (VRef 4) (VRef 5) (VStr "tick") demo_heap
  = (inr (VRef 6),
     demo_heap ++ [CObj [("a", VNum 6); ("b", VRef 7)];
                   CObj [("last", VStr "tick")]]).
Proof. vm_compute. reflexivity. Qed.

(** [combineReducers({ a, b })(undefined, 'tick')] is
    [{ a: 0, b: { last: 'tick' } }]. *)
Example combineReducers_demo_undefined :
  combineReducers demo_call (VRef 4) VUndef (VStr "tick") demo_heap
  = (inr (VRef 7),
     demo_heap ++ [CObj [];
                   CObj [("a", VNum 0); ("b", VRef 8)];
                   CObj [("last", VStr "tick")]]).
Proof. vm_compute. reflexivity. Qed.

(** [preserveValuesFromState({ a: 5, extra: true }, ['a'], undefined)] is
    [{ a: 5 }]. *)
Example preserveValuesFromState_demo :
  preserveValuesFromState demo_call pick_own (VRef 5) (VRef 6) VUndef
    (demo_heap ++ [CArr [VStr "a"]])
  = (inr (VRef 7), demo_heap ++ [CArr [VStr "a"]; CObj [("a", VNum 5)]]).
Proof. vm_compute. reflexivity. Qed.

(** [updateObject({ a: 5, extra: true }, { id: 1, v: 'a' })] *)
Example updateObject_demo :
  updateObject (VRef 5) (VRef 0) demo_heap
  = (inr (VRef 6),
     demo_heap ++ [CObj [("a", VNum 5); ("extra", VBool true);
                         ("id", VNum 1); ("v", VStr "a")]]).
Proof. vm_compute. reflexivity. Qed.


(** * Further properties *)

(** ** PathCodec *)

(** Splitting distributes over a separator, whatever the two sides hold. *)
Lemma split_app c a b :
  JsString.split c (a +:+ String c b) = JsString.split c a ++ JsString.split c b.
Proof.
  induction a as [|x a IH]; simpl.
  - rewrite Ascii.eqb_refl. reflexivity.
  - destruct (Ascii.eqb x c); [rewrite IH; reflexivity|].
    rewrite IH. destruct (split_cons c a) as (w & ws & ->). reflexivity.
Qed.

(** The guard [path ? ... : []] does not change the outcome on strings. *)
Lemma pathToArr_filter s :
  pathToArr (Some s) = List.filter JsString.truthy (JsString.split "/" s).
Proof.
  unfold pathToArr. destruct (JsString.truthy s) eqn:E; [reflexivity|].
  apply truthy_false in E. subst s. reflexivity.
Qed.

(** An empty piece between slashes only shows in the empty result. *)
Lemma getSlashStrPath_pieces x :
  In "" (JsString.split "/" (getSlashStrPath x)) -> getSlashStrPath x = "".
Proof.
  pose proof (pathToArr_truthy x) as HT.
  pose proof (pathToArr_no_slash x) as HS.
  unfold getSlashStrPath. destruct (pathToArr x) as [|w ws]; [reflexivity|].
  rewrite split_join by (discriminate || exact HS).
  intros Hin. rewrite List.Forall_forall in HT.
  specialize (HT _ Hin). discriminate.
Qed.

(** X1: the segments of two paths joined by a slash are the segments of
    the first followed by the segments of the second. *)
Theorem pathToArr_slash_app :
  forall a b,
    pathToArr (Some (a +:+ "/" +:+ b))
    = pathToArr (Some a) ++ pathToArr (Some b).
Proof.
  intros a b. rewrite !pathToArr_filter.
  change (a +:+ "/" +:+ b) with (a +:+ String "/" b).
  rewrite split_app. apply List.filter_app.
Qed.

(** X2: a path has no segments exactly when it is made of slashes only
    (the empty path included). *)
Theorem pathToArr_nil_iff :
  forall s,
    pathToArr (Some s) = [] <->
    Forall (fun a => a = "/"%char) (list_ascii_of_string s).
Proof.
  intros s. rewrite pathToArr_filter.
  induction s as [|a s IH]; simpl.
  - split; [constructor | reflexivity].
  - destruct (Ascii.eqb_spec a "/") as [->|Hne]; simpl.
    + rewrite IH. split; [intros H; constructor; [reflexivity | exact H]|].
      intros H. inversion H; assumption.
    + destruct (split_cons "/" s) as (w & ws & ->). simpl.
      split; [discriminate|]. intros H. inversion H; congruence.
Qed.

(** X3: normalising a path keeps its segments: [pathToArr] of the slash
    form is [pathToArr] of the path, so the dot form of the slash form is
    the dot form, and the slash form of a dot form is that dot form. *)
Theorem getSlashStrPath_round_trip :
  forall x,
    pathToArr (Some (getSlashStrPath x)) = pathToArr x /\
    getDotStrPath (Some (getSlashStrPath x)) = getDotStrPath x /\
    getSlashStrPath (Some (getDotStrPath x)) = getDotStrPath x.
Proof.
  intros x.
  pose proof (pathToArr_truthy x) as HT.
  pose proof (pathToArr_no_slash x) as HS.
  assert (E : pathToArr (Some (getSlashStrPath x)) = pathToArr x).
  { unfold getSlashStrPath. rewrite pathToArr_join by exact HS.
    apply filter_all, HT. }
  split; [exact E|]. split.
  - unfold getDotStrPath at 1. rewrite E. reflexivity.
  - unfold getSlashStrPath, getDotStrPath.
    destruct (pathToArr x) as [|w ws]; [reflexivity|].
    inversion HT as [|? ? Hw _]; subst.
    rewrite pathToArr_single; [reflexivity | apply join_truthy, Hw |].
    apply has_char_join; [reflexivity | exact HS].
Qed.

(** X4: the slash form never starts with a slash, never ends with one and
    never holds two in a row. *)
Theorem getSlashStrPath_trimmed :
  forall x,
    (forall t, getSlashStrPath x <> "/" +:+ t) /\
    (forall s, getSlashStrPath x <> s +:+ "/") /\
    (forall s t, getSlashStrPath x <> s +:+ "//" +:+ t).
Proof.
  intros x.
  assert (Hsplit : forall s t,
             getSlashStrPath x = s +:+ String "/" t ->
             ~ In "" (JsString.split "/" s ++ JsString.split "/" t)).
  { intros s t E Hin. rewrite <- split_app, <- E in Hin.
    apply getSlashStrPath_pieces in Hin. rewrite Hin in E.
    destruct s; discriminate. }
  split; [|split].
  - intros t E. apply (Hsplit "" t E). left. reflexivity.
  - intros s E. apply (Hsplit s "" E). apply in_or_app. right. left. reflexivity.
  - intros s t E. apply (Hsplit s (String "/" t) E).
    apply in_or_app. right. simpl. left. reflexivity.
Qed.

Lemma replace_char_app a b s t :
  replace_char a b (s +:+ t) = replace_char a b s +:+ replace_char a b t.
Proof. induction s as [|x s IH]; simpl; [reflexivity | rewrite IH; reflexivity]. Qed.

Lemma replace_char_absent a b s :
  JsString.has_char a s = false -> replace_char a b s = s.
Proof.
  induction s as [|x s IH]; simpl; [reflexivity|].
  destruct (Ascii.eqb x a); [discriminate|]. intros H. rewrite (IH H). reflexivity.
Qed.

Lemma replace_char_join a b segs :
  Forall (fun w => JsString.has_char a w = false) segs ->
  replace_char a b (JsString.join (String a "") segs)
  = JsString.join (String b "") segs.
Proof.
  induction 1 as [|w segs Hw _ IH]; [reflexivity|].
  destruct segs as [|y segs]; [exact (replace_char_absent _ _ _ Hw)|].
  change (JsString.join (String a "") (w :: y :: segs))
    with (w +:+ String a (JsString.join (String a "") (y :: segs))).
  rewrite replace_char_app, (replace_char_absent _ _ _ Hw).
  cbn [replace_char]. rewrite Ascii.eqb_refl, IH. reflexivity.
Qed.

(** X5: the dot form is the slash form with every slash turned into a
    dot; it holds no slash. *)
Theorem getDotStrPath_replaces_slashes :
  forall x,
    getDotStrPath x = replace_char "/" "." (getSlashStrPath x) /\
    JsString.has_char "/" (getDotStrPath x) = false.
Proof.
  intros x. pose proof (pathToArr_no_slash x) as HS.
  unfold getDotStrPath, getSlashStrPath. split.
  - symmetry. apply (replace_char_join "/" "." _ HS).
  - apply has_char_join; [reflexivity | exact HS].
Qed.

(** ** MetaPathResolver *)

Lemma present_Some field s : present field = Some s -> field = Some s /\ s <> "".
Proof.
  destruct field as [s'|]; simpl; [|discriminate].
  destruct (JsString.truthy s') eqn:E; [|discriminate].
  intros [= <-]. split; [reflexivity | apply truthy_spec, E].
Qed.

Lemma append_nonempty s t : s <> "" -> s +:+ t <> "".
Proof. destruct s; [congruence | discriminate]. Qed.

(** X6: a resolved path is never the empty string. *)
Theorem pathFromMeta_nonempty :
  forall meta path, pathFromMeta meta = inr path -> path <> "".
Proof.
  intros [[collection doc subcollections storeAs]|] path; [|discriminate].
  rewrite pathFromMeta_unfold.
  destruct (present storeAs) as [s|] eqn:Es.
  { intros [= <-]. apply (present_Some _ _ Es). }
  destruct (present collection) as [c|] eqn:Ec; [|discriminate].
  apply present_Some in Ec. destruct Ec as [_ Hc]. cbv zeta.
  assert (Hbase : match present doc with
                  | Some d => c +:+ "." +:+ d
                  | None => c
                  end <> "")
    by (destruct (present doc); [apply append_nonempty|]; exact Hc).
  destruct subcollections as [subs|]; [|intros [= <-]; exact Hbase].
  destruct (mapM pathFromMeta subs); [discriminate|].
  intros [= <-]. apply append_nonempty, Hbase.
Qed.

Lemma pathFromMeta_nonempty_witness : "c.d.s1" <> "".
Proof.
  apply (pathFromMeta_nonempty
           (Some (mkMeta (Some "c") (Some "d")
                    (Some [Some (mkMeta (Some "s1") None None None)]) None))).
  reflexivity.
Defined.

Lemma mapM_app {A B} (f : A -> exn + B) l1 l2 :
  mapM f (l1 ++ l2) =
  match mapM f l1 with
  | inl e => inl e
  | inr ys1 =>
      match mapM f l2 with
      | inl e => inl e
      | inr ys2 => inr (ys1 ++ ys2)
      end
  end.
Proof.
  induction l1 as [|x l1 IH]; simpl.
  - destruct (mapM f l2); reflexivity.
  - destruct (f x); [reflexivity|]. rewrite IH.
    destruct (mapM f l1); [reflexivity|]. destruct (mapM f l2); reflexivity.
Qed.

Lemma mapM_length {A B} (f : A -> exn + B) l ys :
  mapM f l = inr ys -> length ys = length l.
Proof.
  intros H. apply mapM_inr in H. symmetry. exact (Forall2_length _ _ _ H).
Qed.

Lemma append_assoc' (a b c : string) : (a +:+ b) +:+ c = a +:+ b +:+ c.
Proof.
  induction a as [|x a IH]; [reflexivity|].
  change (String x ((a +:+ b) +:+ c) = String x (a +:+ b +:+ c)).
  rewrite IH. reflexivity.
Qed.

Lemma join_cons sep x y l :
  JsString.join sep (x :: y :: l) = x +:+ sep +:+ JsString.join sep (y :: l).
Proof. reflexivity. Qed.

Lemma join_app sep l1 l2 :
  l1 <> [] -> l2 <> [] ->
  JsString.join sep (l1 ++ l2)
  = JsString.join sep l1 +:+ sep +:+ JsString.join sep l2.
Proof.
  intros H1 H2. induction l1 as [|x l1 IH]; [congruence|].
  destruct l1 as [|y l1].
  - destruct l2; [congruence | reflexivity].
  - change ((x :: y :: l1) ++ l2) with (x :: y :: (l1 ++ l2)).
    rewrite !join_cons. rewrite !append_assoc'. do 2 f_equal.
    apply IH. discriminate.
Qed.

(** Joining a list in which one element is itself a join of [b :: ps]. *)
Lemma join_flatten sep pre b ps post :
  ps <> [] ->
  JsString.join sep (pre ++ (b +:+ sep +:+ JsString.join sep ps) :: post)
  = JsString.join sep (pre ++ b :: ps ++ post).
Proof.
  intros Hps.
  assert (E : JsString.join sep ((b +:+ sep +:+ JsString.join sep ps) :: post)
              = JsString.join sep (b :: ps ++ post)).
  { destruct ps as [|p ps]; [congruence|]. destruct post as [|q post].
    - rewrite app_nil_r. reflexivity.
    - change ((p :: ps) ++ q :: post) with (p :: (ps ++ q :: post)).
      rewrite !join_cons.
      change (p :: (ps ++ q :: post)) with ((p :: ps) ++ q :: post).
      rewrite join_app by discriminate.
      rewrite !append_assoc'. reflexivity. }
  induction pre as [|x pre IH]; [exact E|].
  assert (Hcons : forall l, l <> [] ->
             JsString.join sep (x :: l) = x +:+ sep +:+ JsString.join sep l)
    by (intros [|y l] Hl; [congruence | reflexivity]).
  cbn [app]. rewrite !Hcons, IH; [reflexivity | |];
    destruct pre; discriminate.
Qed.

(** X7: subcollections are flattened.  An entry with its own (non-empty)
    subcollections resolves as if those subcollections followed it as
    siblings: nesting one level deeper and listing side by side give the
    same outcome, path or error. *)
Theorem pathFromMeta_flattens :
  forall collection doc storeAs pre post collection1 doc1 storeAs1 subs1,
    present storeAs1 = None ->
    subs1 <> [] ->
    pathFromMeta
      (Some (mkMeta collection doc
               (Some (pre ++
                      Some (mkMeta collection1 doc1 (Some subs1) storeAs1)
                      :: post))
               storeAs))
    = pathFromMeta
        (Some (mkMeta collection doc
                 (Some (pre ++
                        Some (mkMeta collection1 doc1 None storeAs1)
                        :: subs1 ++ post))
                 storeAs)).
Proof.
  intros collection doc storeAs pre post collection1 doc1 storeAs1 subs1 Hs1 Hne.
  rewrite !pathFromMeta_unfold.
  destruct (present storeAs); [reflexivity|].
  destruct (present collection) as [c|]; [|reflexivity]. cbv zeta.
  rewrite !mapM_app.
  destruct (mapM pathFromMeta pre) as [e|ps0]; [reflexivity|].
  cbn [mapM]. rewrite !pathFromMeta_unfold, Hs1.
  destruct (present collection1) as [c1|]; [|reflexivity]. cbv zeta.
  rewrite mapM_app.
  destruct (mapM pathFromMeta subs1) as [e|ps1] eqn:E1; [reflexivity|].
  destruct (mapM pathFromMeta post) as [e|ps2]; [reflexivity|].
  do 3 f_equal. apply join_flatten.
  apply mapM_length in E1. destruct ps1; [|discriminate].
  destruct subs1; [congruence | discriminate].
Qed.

Lemma pathFromMeta_flattens_witness :
  pathFromMeta
    (Some (mkMeta (Some "c") None
             (Some [Some (mkMeta (Some "s1") None
                            (Some [Some (mkMeta (Some "s2") None None None)])
                            None)])
             None))
  = pathFromMeta
      (Some (mkMeta (Some "c") None
               (Some [Some (mkMeta (Some "s1") None None None);
                      Some (mkMeta (Some "s2") None None None)])
               None)).
Proof.
  apply (pathFromMeta_flattens (Some "c") None None [] []
           (Some "s1") None None [Some (mkMeta (Some "s2") None None None)]).
  - reflexivity.
  - discriminate.
Defined.

(** X8: for a collection and a doc without slashes, the path of the meta
    is the dot form of the Firestore path [collection/doc]; for a
    collection alone it is the dot form of the collection. *)
Theorem pathFromMeta_getDotStrPath :
  forall c d,
    c <> "" -> d <> "" ->
    JsString.has_char "/" c = false ->
    JsString.has_char "/" d = false ->
    pathFromMeta (Some (mkMeta (Some c) (Some d) None None))
    = inr (getDotStrPath (Some (c +:+ "/" +:+ d))) /\
    pathFromMeta (Some (mkMeta (Some c) None None None))
    = inr (getDotStrPath (Some c)).
Proof.
  intros c d Hc Hd Hsc Hsd.
  apply truthy_spec in Hc, Hd.
  rewrite !pathFromMeta_unfold. simpl present. rewrite Hc, Hd. cbv zeta.
  unfold getDotStrPath. split.
  - change (c +:+ "/" +:+ d) with (JsString.join "/" [c; d]).
    rewrite pathToArr_join by (repeat constructor; assumption).
    simpl. rewrite Hc, Hd. reflexivity.
  - rewrite (pathToArr_single c Hc Hsc). reflexivity.
Qed.

Lemma pathFromMeta_getDotStrPath_witness :
  pathFromMeta (Some (mkMeta (Some "users") (Some "u1") None None))
  = inr (getDotStrPath (Some "users/u1")).
Proof.
  apply (pathFromMeta_getDotStrPath "users" "u1");
    (discriminate || reflexivity).
Defined.

(** ** StateMerger: [updateObject] *)

Lemma lookup_prop_In k x props :
  List.NoDup (List.map fst props) -> In (k, x) props -> lookup_prop k props = x.
Proof.
  induction props as [|[k' y] props IH]; simpl; [intros _ []|].
  intros Hnd. apply List.NoDup_cons_iff in Hnd. destruct Hnd as [Hk' Hnd].
  intros [[= -> ->]|Hin].
  - rewrite String.eqb_refl. reflexivity.
  - destruct (String.eqb_spec k' k) as [->|_]; [|exact (IH Hnd Hin)].
    exfalso. apply Hk'. apply (in_map fst) in Hin. exact Hin.
Qed.

Lemma assign_prop_fresh k x props :
  ~ In k (List.map fst props) -> assign_prop k x props = props ++ [(k, x)].
Proof.
  induction props as [|[k' y] props IH]; simpl; [reflexivity|].
  intros Hn. destruct (String.eqb_spec k' k) as [->|_]; [tauto|].
  rewrite IH by tauto. reflexivity.
Qed.

(** Assigning distinct new keys appends them in order. *)
Lemma assign_all_fresh kvs : forall props,
  List.NoDup (List.map fst props ++ List.map fst kvs) ->
  assign_all kvs props = props ++ kvs.
Proof.
  induction kvs as [|[k x] kvs IH]; intros props Hnd.
  - rewrite app_nil_r. reflexivity.
  - unfold assign_all in *. simpl in *.
    rewrite assign_prop_fresh.
    + rewrite IH; [rewrite <- app_assoc; reflexivity|].
      rewrite List.map_app, <- app_assoc. exact Hnd.
    + apply List.NoDup_remove_2 in Hnd. intros Hin. apply Hnd.
      apply in_or_app. left. exact Hin.
Qed.

Lemma assign_all_app kvs1 kvs2 props :
  assign_all (kvs1 ++ kvs2) props = assign_all kvs2 (assign_all kvs1 props).
Proof. unfold assign_all. apply fold_left_app. Qed.

(** The merge of two property lists: the second wins. *)
Lemma assign_all_merge po pn k :
  List.NoDup (List.map fst po) -> List.NoDup (List.map fst pn) ->
  lookup_prop k (assign_all (po ++ pn) [])
  = if in_dec string_dec k (List.map fst pn)
    then lookup_prop k pn else lookup_prop k po.
Proof.
  intros Ho Hn. rewrite assign_all_app.
  destruct (in_dec string_dec k (List.map fst pn)) as [Hin|Hout].
  - symmetry. apply lookup_prop_In; [exact Hn|]. apply assign_all_lookup, Hin.
  - rewrite assign_all_lookup_notin by exact Hout.
    rewrite assign_all_fresh by exact Ho. reflexivity.
Qed.

Lemma spread_objects lo po ln pn (h : heap) :
  h !! lo = Some (CObj po) -> h !! ln = Some (CObj pn) ->
  spread (VRef lo) (VRef ln) h
  = (inr (VRef (length h)), h ++ [CObj (assign_all (po ++ pn) [])]).
Proof.
  intros Hlo Hln. unfold spread, alloc, own_props. rewrite Hlo, Hln. reflexivity.
Qed.

Lemma updateObject_objects lo po ln pn (h : heap) :
  h !! lo = Some (CObj po) -> h !! ln = Some (CObj pn) ->
  ~ In "__proto__" (List.map fst po) ->
  ~ In "__proto__" (List.map fst pn) ->
  updateObject (VRef lo) (VRef ln) h
  = (inr (VRef (length h)), h ++ [CObj (assign_all (po ++ pn) [])]).
Proof.
  intros Hlo Hln Hpo Hpn.
  unfold updateObject, Object_assign_new, alloc, own_props.
  rewrite Hlo, Hln, put_all_writes by (intros []).
  rewrite writes_id; [reflexivity|].
  rewrite List.map_app, in_app_iff. tauto.
Qed.

(** X9: [updateObject] on two objects without a key [__proto__] returns a
    new object and leaves the heap that was there as it is; the keys of
    the result are the keys of either argument, and at each key the value
    of [newValues] wins over the value of [oldObject]. *)
Theorem updateObject_merge :
  forall lo po ln pn (h : heap),
    h !! lo = Some (CObj po) ->
    h !! ln = Some (CObj pn) ->
    List.NoDup (List.map fst po) ->
    List.NoDup (List.map fst pn) ->
    ~ In "__proto__" (List.map fst po) ->
    ~ In "__proto__" (List.map fst pn) ->
    exists props,
      updateObject (VRef lo) (VRef ln) h
      = (inr (VRef (length h)), h ++ [CObj props]) /\
      List.NoDup (List.map fst props) /\
      (forall k, In k (List.map fst props) <->
                 In k (List.map fst po) \/ In k (List.map fst pn)) /\
      (forall k, lookup_prop k props
                 = if in_dec string_dec k (List.map fst pn)
                   then lookup_prop k pn else lookup_prop k po).
Proof.
  intros lo po ln pn h Hlo Hln Ho Hn Hpo Hpn.
  exists (assign_all (po ++ pn) []).
  split; [apply updateObject_objects; assumption|].
  split; [apply assign_all_NoDup; constructor|].
  split.
  - intros k. rewrite assign_all_keys, List.map_app, in_app_iff. simpl. tauto.
  - intros k. apply assign_all_merge; assumption.
Qed.

Lemma updateObject_merge_witness :
  exists props,
    updateObject (VRef 0) (VRef 1)
      [CObj [("x", VNum 1); ("y", VNum 2)]; CObj [("y", VNum 3); ("z", VNum 4)]]
    = (inr (VRef 2),
       [CObj [("x", VNum 1); ("y", VNum 2)]; CObj [("y", VNum 3); ("z", VNum 4)]]
         ++ [CObj props]) /\
    lookup_prop "x" props = VNum 1 /\
    lookup_prop "y" props = VNum 3 /\
    lookup_prop "z" props = VNum 4.
Proof.
  destruct (updateObject_merge
              0 [("x", VNum 1); ("y", VNum 2)] 1 [("y", VNum 3); ("z", VNum 4)]
              [CObj [("x", VNum 1); ("y", VNum 2)];
               CObj [("y", VNum 3); ("z", VNum 4)]])
    as (props & Hrun & _ & _ & Hval).
  - reflexivity.
  - reflexivity.
  - repeat constructor; simpl; intuition discriminate.
  - repeat constructor; simpl; intuition discriminate.
  - simpl. intuition discriminate.
  - simpl. intuition discriminate.
  - exists props. split; [exact Hrun|].
    rewrite !Hval. repeat split.
Defined.

(** X10: merging an object without a key [__proto__] with [undefined] or
    [null], on either side, is a shallow copy: a new reference to an
    object with the same keys, each with the same value. *)
Theorem updateObject_copy :
  forall lo po (h : heap) nothing,
    h !! lo = Some (CObj po) ->
    List.NoDup (List.map fst po) ->
    ~ In "__proto__" (List.map fst po) ->
    nothing = VUndef \/ nothing = VNull ->
    exists props,
      updateObject (VRef lo) nothing h
      = (inr (VRef (length h)), h ++ [CObj props]) /\
      updateObject nothing (VRef lo) h
      = (inr (VRef (length h)), h ++ [CObj props]) /\
      List.NoDup (List.map fst props) /\
      (forall k, In k (List.map fst props) <-> In k (List.map fst po)) /\
      (forall k, lookup_prop k props = lookup_prop k po).
Proof.
  intros lo po h nothing Hlo Hnd Hpo Hnothing.
  assert (E : put_all po [] = po).
  { rewrite put_all_writes, (writes_id _ Hpo) by (intros []).
    apply assign_all_fresh, Hnd. }
  exists po.
  split; [|split; [|split; [exact Hnd|split; intros k; reflexivity]]].
  - unfold updateObject, Object_assign_new, alloc.
    destruct Hnothing as [-> | ->]; unfold own_props; rewrite Hlo;
      rewrite app_nil_r, E; reflexivity.
  - unfold updateObject, Object_assign_new, alloc.
    destruct Hnothing as [-> | ->]; unfold own_props; rewrite Hlo;
      simpl app; rewrite E; reflexivity.
Qed.

Lemma updateObject_copy_witness :
  exists props,
    updateObject (VRef 5) VUndef demo_heap
    = (inr (VRef 6), demo_heap ++ [CObj props]) /\
    lookup_prop "a" props = VNum 5 /\
    lookup_prop "extra" props = VBool true.
Proof.
  destruct (updateObject_copy 5 [("a", VNum 5); ("extra", VBool true)]
              demo_heap VUndef)
    as (props & Hrun & _ & _ & _ & Hval).
  - reflexivity.
  - repeat constructor; simpl; intuition discriminate.
  - simpl. intuition discriminate.
  - left. reflexivity.
  - exists props. split; [exact Hrun|].
    rewrite !Hval. split; reflexivity.
Defined.

(** ** PreservationPolicy: the setting [true] *)

(** X11: with the setting [true], a falsy next state ([undefined], [null],
    [false], [0], the empty string) gives back the prior state itself and
    the heap is untouched; a next state that is an object is merged over
    the prior state into a new object, its values winning. *)
Theorem preserveValuesFromState_true :
  forall call pick state nextState (h : heap),
    (truthy nextState = false ->
     preserveValuesFromState call pick state (VBool true) nextState h
     = (inr state, h)) /\
    (forall ls ps ln pn,
        state = VRef ls -> nextState = VRef ln ->
        h !! ls = Some (CObj ps) -> h !! ln = Some (CObj pn) ->
        List.NoDup (List.map fst ps) -> List.NoDup (List.map fst pn) ->
        exists props,
          preserveValuesFromState call pick state (VBool true) nextState h
          = (inr (VRef (length h)), h ++ [CObj props]) /\
          (forall k, In k (List.map fst props) <->
                     In k (List.map fst ps) \/ In k (List.map fst pn)) /\
          (forall k, lookup_prop k props
                     = if in_dec string_dec k (List.map fst pn)
                       then lookup_prop k pn else lookup_prop k ps)).
Proof.
  intros call pick state nextState h. split.
  - intros Hfalsy. unfold preserveValuesFromState. simpl.
    rewrite Hfalsy. reflexivity.
  - intros ls ps ln pn -> -> Hls Hln Hs Hn.
    exists (assign_all (ps ++ pn) []).
    split; [unfold preserveValuesFromState; simpl;
            apply spread_objects; assumption|].
    split.
    + intros k. rewrite assign_all_keys, List.map_app, in_app_iff. simpl. tauto.
    + intros k. apply assign_all_merge; assumption.
Qed.

Lemma preserveValuesFromState_true_witness :
  preserveValuesFromState demo_call pick_own (VRef 5) (VBool true) VUndef
    demo_heap
  = (inr (VRef 5), demo_heap) /\
  exists props,
    preserveValuesFromState demo_call pick_own (VRef 5) (VBool true) (VRef 0)
      demo_heap
    = (inr (VRef 6), demo_heap ++ [CObj props]) /\
    lookup_prop "a" props = VNum 5 /\
    lookup_prop "id" props = VNum 1.
Proof.
  destruct (preserveValuesFromState_true demo_call pick_own (VRef 5) VUndef
              demo_heap) as [Hfalsy _].
  destruct (preserveValuesFromState_true demo_call pick_own (VRef 5) (VRef 0)
              demo_heap) as [_ Hmerge].
  split; [apply Hfalsy; reflexivity|].
  destruct (Hmerge 5 [("a", VNum 5); ("extra", VBool true)]
              0 [("id", VNum 1); ("v", VStr "a")])
    as (props & Hrun & _ & Hval); try reflexivity;
    try (repeat constructor; simpl; intuition discriminate).
  exists props. split; [exact Hrun|]. rewrite !Hval. split; reflexivity.
Defined.

(** ** ReducerCombinator: edges of [combineReducers] *)

(** X12: the default [state = {}] stands in for [undefined] only.  With
    the state [null] and a reducer map that has at least one key, the
    combined reducer throws a [TypeError] (reading [state[key]]) before
    any reducer is called; with an empty map it returns a new empty
    object. *)
Theorem combineReducers_null_state :
  forall call lr rprops action (h : heap),
    h !! lr = Some (CObj rprops) ->
    (rprops <> [] ->
     exists msg,
       combineReducers call (VRef lr) VNull action h
       = (inl (TypeError msg), h ++ [CObj []])) /\
    (rprops = [] ->
     combineReducers call (VRef lr) VNull action h
     = (inr (VRef (length h)), h ++ [CObj []])).
Proof.
  intros call lr rprops action h Hlr.
  assert (Hlr' : (h ++ [CObj []]) !! lr = Some (CObj rprops))
    by (rewrite lookup_app_l; [exact Hlr | apply lookup_lt_Some in Hlr; exact Hlr]).
  unfold combineReducers, bind, ret, Object_keys, own_props, alloc.
  rewrite Hlr.
  split.
  - intros Hne. destruct rprops as [|[k r] rprops]; [congruence|].
    eexists. cbn [List.map fst reduce]. unfold bind, get, read.
    rewrite Hlr'. reflexivity.
  - intros ->. reflexivity.
Qed.

Lemma combineReducers_null_state_witness :
  exists msg,
    combineReducers demo_call (VRef 4) VNull (VStr "tick") demo_heap
    = (inl (TypeError msg), demo_heap ++ [CObj []]).
Proof.
  apply (proj1 (combineReducers_null_state demo_call 4
                  [("a", VFun 1); ("b", VFun 2)] (VStr "tick") demo_heap
                  eq_refl)).
  discriminate.
Defined.

Section ReducersEdges.

Variable call : fid -> list val -> M val.

Hypothesis call_extends :
  forall f args h r h', call f args h = (r, h') -> h `prefix_of` h'.

(** X13: on a reducer map without a key [__proto__] the combined reducer
    throws nothing of its own: whatever it throws was thrown by the call
    of one key's entry on [(state[key], action)] (a [TypeError] when the
    entry is no function). *)
Theorem combineReducers_throws_only :
  forall lr rprops state action (h : heap) e h',
    h !! lr = Some (CObj rprops) ->
    ~ In "__proto__" (List.map fst rprops) ->
    (state = VUndef \/
     exists ls sprops, state = VRef ls /\ h !! ls = Some (CObj sprops)) ->
    combineReducers call (VRef lr) state action h = (inl e, h') ->
    exists k h0 h1,
      In k (List.map fst rprops) /\
      frame (length h) h h0 /\
      callv call (lookup_prop k rprops) [substate h state k; action] h0
      = (inl e, h1).
Proof.
  intros lr rprops state action h e h' Hlr _ Hstate Hrun.
  destruct (combineReducers_run call call_extends lr rprops state action h
              Hlr Hstate) as (h1 & Hfr1 & _ & Hres).
  cbv zeta in Hres. rewrite Hrun in Hres.
  destruct Hres as (k & h0 & h2 & Hin & Hfr0 & Hk).
  exists k, h0, h2. split; [exact Hin|]. split; [|exact Hk].
  apply frame_trans with h1; [exact Hfr1|].
  apply frame_weaken with (length h1); [apply Hfr1 | exact Hfr0].
Qed.

(** X14: [updateItemInArray] throws nothing of its own on items whose id
    can be read: whatever it throws was thrown by the callback on an item
    whose id is the target. *)
Theorem updateItemInArray_throws_only :
  forall la items itemId cb (h : heap) e h',
    h !! la = Some (CArr items) ->
    Forall (fun item => exists item_id, read h item "id" = inr item_id) items ->
    updateItemInArray call (VRef la) itemId cb h = (inl e, h') ->
    exists item h0 h1,
      In item items /\
      has_id h itemId item = true /\
      frame (length h) h h0 /\
      callv call cb [item] h0 = (inl e, h1).
Proof.
  intros la items itemId cb h e h' Hla Hids Hrun.
  pose proof (updateItemInArray_run call call_extends la items itemId cb h
                Hla Hids) as Hres.
  rewrite Hrun in Hres.
  destruct Hres as (x & h0 & h1 & Hin & Hfr & Hx).
  apply filter_In in Hin. destruct Hin as [Hin Hid].
  exists x, h0, h1. repeat split; try assumption; apply Hfr.
Qed.

Lemma has_id_stable (h h1 : heap) itemId x :
  (exists item_id, read h x "id" = inr item_id) ->
  frame (length h) h h1 ->
  has_id h1 itemId x = has_id h itemId x.
Proof.
  intros [item_id Hid] Hfr. unfold has_id.
  rewrite (read_stable _ _ _ _ _ Hid Hfr), Hid. reflexivity.
Qed.

Lemma has_id_readable (h : heap) itemId x :
  has_id h itemId x = true -> exists item_id, read h x "id" = inr item_id.
Proof.
  unfold has_id. destruct (read h x "id") as [e|item_id]; [discriminate|].
  intros _. exists item_id. reflexivity.
Qed.

(** The outcome of [updateItemInArray] with a callback that computes [g]
    without touching the heap. *)
Lemma updateItemInArray_pure la items itemId cb (g : val -> val) (h : heap) :
  h !! la = Some (CArr items) ->
  Forall (fun item => exists item_id, read h item "id" = inr item_id) items ->
  (forall x h0, callv call cb [x] h0 = (inr (g x), h0)) ->
  exists h1,
    updateItemInArray call (VRef la) itemId cb h = (inr (VRef (length h)), h1) /\
    frame (length h) h h1 /\
    h1 !! length h
    = Some (CArr (List.map (fun item =>
                              if has_id h itemId item then g item else item)
                    items)).
Proof.
  intros Hla Hids Hg.
  pose proof (updateItemInArray_run call call_extends la items itemId cb h
                Hla Hids) as Hres.
  destruct (updateItemInArray call (VRef la) itemId cb h) as [[e|v] h1].
  - destruct Hres as (x & h0 & h2 & _ & _ & Hx). rewrite Hg in Hx. discriminate.
  - destruct Hres as (-> & rs & Hrs & Hfr & HF).
    exists h1. split; [reflexivity|]. split; [exact Hfr|].
    rewrite Hrs. do 2 f_equal. clear -HF Hg.
    induction HF as [|x y l k Hxy _ IH]; [reflexivity|].
    simpl. rewrite <- IH. f_equal.
    destruct (has_id h itemId x); [|exact Hxy].
    destruct Hxy as (h0 & h2 & _ & Hx). rewrite Hg in Hx. congruence.
Qed.

(** X15: two updates of the same id compose.  With callbacks that compute
    [g1] and [g2] without touching the heap, where [g1] keeps the id of
    the items it updates, updating with the first and then updating the
    result with the second gives the array in which every matching item
    is replaced by [g2 (g1 item)] and every other item is kept. *)
Theorem updateItemInArray_compose :
  forall la items itemId cb1 cb2 (g1 g2 : val -> val) (h : heap),
    h !! la = Some (CArr items) ->
    Forall (fun item => exists item_id, read h item "id" = inr item_id) items ->
    (forall x h0, callv call cb1 [x] h0 = (inr (g1 x), h0)) ->
    (forall x h0, callv call cb2 [x] h0 = (inr (g2 x), h0)) ->
    (forall item, In item items -> has_id h itemId item = true ->
                  has_id h itemId (g1 item) = true) ->
    exists h1 h2,
      updateItemInArray call (VRef la) itemId cb1 h
      = (inr (VRef (length h)), h1) /\
      updateItemInArray call (VRef (length h)) itemId cb2 h1
      = (inr (VRef (length h1)), h2) /\
      h2 !! length h1
      = Some (CArr (List.map (fun item =>
                                if has_id h itemId item
                                then g2 (g1 item) else item)
                      items)).
Proof.
  intros la items itemId cb1 cb2 g1 g2 h Hla Hids Hg1 Hg2 Hkeep.
  destruct (updateItemInArray_pure la items itemId cb1 g1 h Hla Hids Hg1)
    as (h1 & Hrun1 & Hfr & Hrs1).
  set (rs1 := List.map (fun item => if has_id h itemId item then g1 item else item)
                items) in *.
  assert (Hread : Forall (fun x => exists item_id, read h x "id" = inr item_id) rs1).
  { apply List.Forall_forall. intros x Hx. apply in_map_iff in Hx.
    destruct Hx as (item & <- & Hin).
    destruct (has_id h itemId item) eqn:Eid.
    - apply (has_id_readable h itemId), Hkeep; assumption.
    - rewrite List.Forall_forall in Hids. apply Hids, Hin. }
  assert (Hread1 : Forall (fun x => exists item_id, read h1 x "id" = inr item_id) rs1).
  { apply (Forall_impl _ _ _ Hread). intros x [item_id Hid].
    exists item_id. apply (read_stable _ _ _ _ _ Hid Hfr). }
  destruct (updateItemInArray_pure (length h) rs1 itemId cb2 g2 h1 Hrs1 Hread1 Hg2)
    as (h2 & Hrun2 & _ & Hrs2).
  exists h1, h2. split; [exact Hrun1|]. split; [exact Hrun2|].
  rewrite Hrs2. do 2 f_equal. unfold rs1. rewrite List.map_map.
  apply List.map_ext_in. intros item Hin.
  rewrite List.Forall_forall in Hread.
  rewrite (has_id_stable h h1 itemId _
             (Hread _ (in_map _ _ _ Hin)) Hfr).
  destruct (has_id h itemId item) eqn:Eid.
  - rewrite (Hkeep item Hin Eid). reflexivity.
  - rewrite Eid. reflexivity.
Qed.

End ReducersEdges.

Lemma pure_call_extends f args h r h' :
  pure_call f args h = (r, h') -> h `prefix_of` h'.
Proof.
  destruct f as [|[|f]]; simpl; unfold ret; intros [= _ <-]; reflexivity.
Qed.

Lemma combineReducers_throws_only_witness :
  exists k h0 h1,
    In k ["a"] /\
    callv demo_call (VNum 5) [VUndef; VNull] h0
    = (inl (TypeError "not a function"), h1).
Proof.
  destruct (combineReducers_throws_only demo_call demo_call_extends
              0 [("a", VNum 5)] VUndef VNull [CObj [("a", VNum 5)]]
              (TypeError "not a function")
              [CObj [("a", VNum 5)]; CObj []; CObj []])
    as (k & h0 & h1 & Hin & _ & Hk).
  - reflexivity.
  - simpl. intuition discriminate.
  - left. reflexivity.
  - reflexivity.
  - exists k, h0, h1. split; [exact Hin|].
    destruct Hin as [<-|[]]. exact Hk.
Defined.

Lemma updateItemInArray_throws_only_witness :
  exists item h0 h1,
    In item [VRef 0; VRef 1; VRef 2] /\
    has_id demo_heap (VNum 2) item = true /\
    callv demo_call (VNum 5) [item] h0 = (inl (TypeError "not a function"), h1).
Proof.
  destruct (updateItemInArray_throws_only demo_call demo_call_extends
              3 [VRef 0; VRef 1; VRef 2] (VNum 2) (VNum 5) demo_heap
              (TypeError "not a function") (demo_heap ++ [CArr [VRef 0]]))
    as (item & h0 & h1 & Hin & Hid & _ & Hcb).
  - reflexivity.
  - repeat constructor; eexists; reflexivity.
  - reflexivity.
  - exists item, h0, h1. repeat split; assumption.
Defined.

Lemma updateItemInArray_compose_witness :
  exists h1 h2,
    updateItemInArray pure_call (VRef 3) (VNum 2) (VFun 0) demo_heap
    = (inr (VRef 6), h1) /\
    updateItemInArray pure_call (VRef 6) (VNum 2) (VFun 1) h1
    = (inr (VRef (length h1)), h2) /\
    h2 !! length h1 = Some (CArr [VRef 0; VStr "done"; VStr "done"]).
Proof.
  apply (updateItemInArray_compose pure_call pure_call_extends
           3 [VRef 0; VRef 1; VRef 2] (VNum 2) (VFun 0) (VFun 1)
           (fun x => x) (fun _ => VStr "done") demo_heap).
  - reflexivity.
  - repeat constructor; eexists; reflexivity.
  - intros x h0. reflexivity.
  - intros x h0. reflexivity.
  - intros item _ Hid. exact Hid.
Defined.

(** ** MetaPathResolver: empty fields *)

(** X16: a field that holds the empty string counts as a field that is
    not there: an empty [storeAs] does not override, an empty [doc] adds
    no segment, and an empty [collection] is a missing collection. *)
Theorem pathFromMeta_empty_fields :
  forall collection doc subcollections storeAs,
    pathFromMeta (Some (mkMeta collection doc subcollections (Some "")))
    = pathFromMeta (Some (mkMeta collection doc subcollections None)) /\
    pathFromMeta (Some (mkMeta collection (Some "") subcollections storeAs))
    = pathFromMeta (Some (mkMeta collection None subcollections storeAs)) /\
    pathFromMeta (Some (mkMeta (Some "") doc subcollections storeAs))
    = pathFromMeta (Some (mkMeta None doc subcollections storeAs)) /\
    pathFromMeta (Some (mkMeta (Some "") doc subcollections None))
    = inl MissingCollectionError.
Proof.
  intros collection doc subcollections storeAs.
  rewrite !pathFromMeta_unfold. repeat split.
Qed.
